(** * tss-lib: the factorization proof (crypto/facproof) and Alice's range
      proof (crypto/mta), embedded in Rocq.

    Go values are modelled as the code has them: a [*big.Int] is a pointer
    that may be nil ([option Z]), a call either returns or panics
    ([outcome]), [[]byte] is a list of bytes.  The random draws of a prover
    run are an explicit argument ([Draws]); the Fiat-Shamir hash is an
    explicit argument ([common.Oracle]). *)

From Stdlib Require Import ZArith NArith Zpow_facts Zcong List Lia Bool String
  Strings.Byte.
Import ListNotations.
Local Open Scope Z_scope.

(* ===================================================================== *)
(** ** Go run-time: returning or panicking *)
(* ===================================================================== *)

Module Go.

Inductive outcome (A : Type) : Type :=
| Ret (a : A)
| Panic.
Arguments Ret {A} a.
Arguments Panic {A}.

Definition bind {A B : Type} (c : outcome A) (k : A -> outcome B) : outcome B :=
  match c with
  | Ret a => k a
  | Panic => Panic
  end.

(** Dereferencing a pointer: a nil pointer dereference panics. *)
Definition deref {A : Type} (p : option A) : outcome A :=
  match p with
  | Some a => Ret a
  | None => Panic
  end.

Definition isnil {A : Type} (p : option A) : bool :=
  match p with
  | Some _ => false
  | None => true
  end.

(** [s[i]] on a slice: an index out of range panics. *)
Definition index {A : Type} (s : list A) (i : nat) : outcome A :=
  deref (nth_error s i).

End Go.

Export Go.

Declare Scope go_scope.
Delimit Scope go_scope with go.
Notation "x <- c ;; k" := (bind c (fun x => k))
  (at level 61, c at next level, right associativity) : go_scope.
(** [if !c { return false }] followed by the rest of the function. *)
Notation "'ensure' c ;; k" := (bind c (fun ok : bool => if ok then k else Ret false))
  (at level 61, c at next level, right associativity) : go_scope.
Local Open Scope go_scope.

(* ===================================================================== *)
(** ** math/big, as far as the two packages use it *)
(* ===================================================================== *)

Module big.

(** [*big.Int] *)
Definition Int : Type := option Z.

Definition NewInt (x : Z) : Int := Some x.

Definition Mul (x y : Int) : outcome Int :=
  a <- deref x ;; b <- deref y ;; Ret (Some (a * b)).

Definition Add (x y : Int) : outcome Int :=
  a <- deref x ;; b <- deref y ;; Ret (Some (a + b)).

Definition Sub (x y : Int) : outcome Int :=
  a <- deref x ;; b <- deref y ;; Ret (Some (a - b)).

(** [x.Lsh(x, n)]: the magnitude is shifted, the sign kept. *)
Definition Lsh (x : Int) (n : nat) : outcome Int :=
  a <- deref x ;; Ret (Some (Z.shiftl a (Z.of_nat n))).

(** [Sqrt] panics on a negative argument. *)
Definition Sqrt (x : Int) : outcome Int :=
  a <- deref x ;;
  if a <? 0 then Panic else Ret (Some (Z.sqrt a)).

(** [Mod] is the Euclidean modulus; a zero modulus panics. *)
Definition Mod (x y : Int) : outcome Int :=
  a <- deref x ;; m <- deref y ;;
  if m =? 0 then Panic else Ret (Some (a mod Z.abs m)).

(** [x.Cmp(y)] is -1, 0 or +1. *)
Definition Cmp (x y : Int) : outcome Z :=
  a <- deref x ;; b <- deref y ;;
  Ret (match a ?= b with Lt => -1 | Eq => 0 | Gt => 1 end).

Definition Sign (x : Int) : outcome Z :=
  a <- deref x ;; Ret (Z.sgn a).

(** [new(big.Int).GCD(nil, nil, a, b)] *)
Definition GCD (x y : Int) : outcome Int :=
  a <- deref x ;; b <- deref y ;; Ret (Some (Z.gcd a b)).

(** [z.Exp(x, y, m)] is [x**y mod |m|]; a nil or zero [m] means no
    modulus (and [1] for a negative [y]); for a negative [y] and a modulus
    the inverse of [x] modulo [|m|] is raised to [|y|], and nil is returned
    when [x] has no inverse.  [Exp] then gives the result the sign of [x]
    when [y] is odd and the result not zero, and makes a negative result
    positive by subtracting it from [|m|]: for a negative [x] and an odd
    negative [y] it returns [|m|] minus the power of the inverse.
    [Zpow_mod] is square-and-multiply, [Zpow_mod a b n] being
    [a ^ b mod n]. *)
Definition Exp (x y m : Int) : outcome Int :=
  a <- deref x ;; b <- deref y ;;
  let n := match m with Some v => Z.abs v | None => 0 end in
  if b <? 0 then
    if n =? 0 then Ret (Some 1)
    else if Z.gcd a n =? 1 then
      let z := Zpow_mod (Z.invmod a n) (- b) n in
      Ret (Some (if (a <? 0) && Z.odd b && negb (z =? 0) then n - z else z))
    else Ret None
  else
    if n =? 0 then Ret (Some (a ^ b)) else Ret (Some (Zpow_mod a b n)).

Definition byte_val (b : byte) : Z := Z.of_N (Byte.to_N b).

Definition byte_of (n : N) : byte :=
  match Byte.of_N n with
  | Some b => b
  | None => x00
  end.

(** [z.SetBytes(buf)]: [buf] read as a big-endian unsigned integer. *)
Definition SetBytesZ (buf : list byte) : Z :=
  fold_left (fun acc b => acc * 256 + byte_val b) buf 0.

Definition SetBytes (buf : list byte) : Int := Some (SetBytesZ buf).

(** The base-256 digits of [n], least significant first. *)
Fixpoint digits (fuel : nat) (n : N) : list byte :=
  match fuel with
  | O => []
  | S fuel' =>
      if (n =? 0)%N then []
      else byte_of (n mod 256) :: digits fuel' (n / 256)
  end.

Definition BytesZ (a : Z) : list byte :=
  let n := Z.abs_N a in rev (digits (N.to_nat (N.size n)) n).

(** [x.Bytes()]: the absolute value of [x] as a big-endian byte slice
    without leading zeros (empty for zero). *)
Definition Bytes (x : Int) : outcome (list byte) :=
  a <- deref x ;; Ret (BytesZ a).

End big.

(* ===================================================================== *)
(** ** crypto/elliptic: only the group order is consumed *)
(* ===================================================================== *)

Module elliptic.

(** [ec.Params()] *)
Record CurveParams : Type := { N : big.Int }.

(** [elliptic.Curve] is an interface value; it may be nil. *)
Definition Curve : Type := option CurveParams.

Definition Params (ec : Curve) : outcome CurveParams := deref ec.

End elliptic.

(* ===================================================================== *)
(** ** package common (helpers of the repository that the two files call) *)
(* ===================================================================== *)

Module common.

(** Modelled from the spec: [common.ModInt] is missing from the sources;
    the spec names it "exponentiation mod N, multiplication mod N" of the
    big-integer substrate. *)
Definition modInt : Type := big.Int.
Definition ModInt (m : big.Int) : modInt := m.

Module modInt.
Definition Exp (mi : modInt) (x y : big.Int) : outcome big.Int :=
  big.Exp x y mi.

Definition Mul (mi : modInt) (x y : big.Int) : outcome big.Int :=
  i <- big.Mul x y ;; big.Mod i mi.
End modInt.

(** Modelled from the spec: [common.IsInInterval] is missing from the
    sources; the spec reads [IsInInterval(b, bound)] as [b] in
    [[0, bound)]. *)
Definition IsInInterval (b bound : big.Int) : outcome bool :=
  x <- deref b ;; y <- deref bound ;;
  Ret ((x <? y) && (0 <=? x)).

(** Modelled from the spec: [common.NonEmptyMultiBytes] is missing from the
    sources; the spec asks for exactly the expected number of parts, each
    of them non-empty. *)
Definition NonEmptyMultiBytes (bzs : list (list byte)) (expectLen : nat) : bool :=
  (List.length bzs =? expectLen)%nat &&
  forallb (fun bz => negb (List.length bz =? 0)%nat) bzs.

(** Modelled from the spec: [common.SHA512_256i] and
    [common.RejectionSample] are missing from the sources; the spec gives
    them as a deterministic hash of an ordered sequence of integers and a
    reduction of the digest into [[0, q)]. *)
Record Oracle : Type := {
  SHA512_256i : list big.Int -> big.Int;
  RejectionSample : big.Int -> big.Int -> big.Int
}.

(** Modelled from the spec: a challenge for the order [q] is an integer of
    [[0, q)]. *)
Definition challenge_in_range (e : big.Int) (q : Z) : bool :=
  match e with
  | Some v => (0 <=? v) && (v <? q)
  | None => false
  end.

(** Modelled from the spec: [common.GetRandomPositiveInt] and
    [common.GetRandomPositiveRelativelyPrimeInt] are missing from the
    sources; the value drawn is an argument of the model (the randomness of
    the run), and the spec gives an honest draw as an integer of
    [[0, lessThan)], respectively one that is also relatively prime to the
    bound. *)
Definition GetRandomPositiveInt (draw lessThan : big.Int) : big.Int := draw.
Definition GetRandomPositiveRelativelyPrimeInt (draw n : big.Int) : big.Int :=
  draw.

(** An honest draw of [GetRandomPositiveInt(bound)]. *)
Definition drawn_below (v : big.Int) (bound : Z) : bool :=
  match v with
  | Some a => (0 <=? a) && (a <? bound)
  | None => false
  end.

(** An honest draw of [GetRandomPositiveRelativelyPrimeInt(bound)]. *)
Definition drawn_coprime_below (v : big.Int) (bound : Z) : bool :=
  match v with
  | Some a => (0 <=? a) && (a <? bound) && (Z.gcd a bound =? 1)
  | None => false
  end.

(** The oracle keeps the contract of the challenge derivation for the
    order [q]: every challenge is an integer of [[0, q)]. *)
Definition challenges_in_range (O : Oracle) (q : Z) : Prop :=
  forall h : big.Int, challenge_in_range (RejectionSample O (Some q) h) q = true.

(** An oracle that answers every challenge with [e]. *)
Definition constant_oracle (e : big.Int) : Oracle :=
  {| SHA512_256i := fun _ => Some 0; RejectionSample := fun _ _ => e |}.

End common.

(* ===================================================================== *)
(** ** crypto/facproof/proof.go *)
(* ===================================================================== *)

Module facproof.

Import common.

Definition ProofFacBytesParts : nat := 11.

Record ProofFac : Type := {
  P : big.Int; Q : big.Int; A : big.Int; B : big.Int; T : big.Int;
  Sigma : big.Int; Z1 : big.Int; Z2 : big.Int; W1 : big.Int; W2 : big.Int;
  V : big.Int
}.

(** Go's [error]: nil or a message. *)
Definition error : Type := option string.

(** [rangeParameter] l limits the bits of p or q to be in
    [[1024-l, 1024+l]]. *)
Definition rangeParameter : big.Int := Some (Z.shiftl 1 15).
Definition one : big.Int := big.NewInt 1.

(** The eight draws of one run of [NewProof], in the order of Fig 28.1. *)
Record Draws : Type := {
  alpha : big.Int; beta : big.Int; mu : big.Int; nu : big.Int;
  sigma : big.Int; r : big.Int; x : big.Int; y : big.Int
}.

Section WithOracle.
Variable O : Oracle.

(** NewProof implements proofFac *)
Definition NewProof (rnd : Draws) (ec : elliptic.Curve)
    (N0 NCap s t N0p N0q : big.Int) : outcome (option ProofFac * error) :=
  if isnil ec || isnil N0 || isnil NCap || isnil s || isnil t
     || isnil N0p || isnil N0q
  then Ret (None, Some "ProveFac constructor received nil value(s)"%string)
  else
    params <- elliptic.Params ec ;;
    let q := elliptic.N params in
    sqrtN0 <- big.Sqrt N0 ;;
    leSqrtN0 <- big.Mul rangeParameter q ;;
    leSqrtN0 <- big.Mul leSqrtN0 sqrtN0 ;;
    lNCap <- big.Mul rangeParameter NCap ;;
    lN0NCap <- big.Mul lNCap N0 ;;
    leN0NCap <- big.Mul lN0NCap q ;;
    leNCap <- big.Mul lNCap q ;;
    (* Fig 28.1 sample *)
    let alpha := GetRandomPositiveInt (alpha rnd) leSqrtN0 in
    let beta := GetRandomPositiveInt (beta rnd) leSqrtN0 in
    let mu := GetRandomPositiveInt (mu rnd) lNCap in
    let nu := GetRandomPositiveInt (nu rnd) lNCap in
    let sigma := GetRandomPositiveInt (sigma rnd) lN0NCap in
    let r := GetRandomPositiveRelativelyPrimeInt (r rnd) leN0NCap in
    let x := GetRandomPositiveInt (x rnd) leNCap in
    let y := GetRandomPositiveInt (y rnd) leNCap in
    (* Fig 28.1 compute *)
    let modNCap := ModInt NCap in
    P <- modInt.Exp modNCap s N0p ;;
    tmu <- modInt.Exp modNCap t mu ;;
    P <- modInt.Mul modNCap P tmu ;;
    Q <- modInt.Exp modNCap s N0q ;;
    tnu <- modInt.Exp modNCap t nu ;;
    Q <- modInt.Mul modNCap Q tnu ;;
    A <- modInt.Exp modNCap s alpha ;;
    tx <- modInt.Exp modNCap t x ;;
    A <- modInt.Mul modNCap A tx ;;
    B <- modInt.Exp modNCap s beta ;;
    ty <- modInt.Exp modNCap t y ;;
    B <- modInt.Mul modNCap B ty ;;
    T <- modInt.Exp modNCap Q alpha ;;
    tr <- modInt.Exp modNCap t r ;;
    T <- modInt.Mul modNCap T tr ;;
    (* Fig 28.2 e *)
    let eHash := SHA512_256i O [N0; NCap; s; t; P; Q; A; B; T; sigma] in
    let e := RejectionSample O q eHash in
    (* Fig 28.3 *)
    z1 <- big.Mul e N0p ;;
    z1 <- big.Add z1 alpha ;;
    z2 <- big.Mul e N0q ;;
    z2 <- big.Add z2 beta ;;
    w1 <- big.Mul e mu ;;
    w1 <- big.Add w1 x ;;
    w2 <- big.Mul e nu ;;
    w2 <- big.Add w2 y ;;
    v <- big.Mul nu N0p ;;
    v <- big.Sub sigma v ;;
    v <- big.Mul e v ;;
    v <- big.Add v r ;;
    Ret (Some {| P := P; Q := Q; A := A; B := B; T := T; Sigma := sigma;
                 Z1 := z1; Z2 := z2; W1 := w1; W2 := w2; V := v |},
         None).

Definition NewProofFromBytes (bzs : list (list byte))
  : outcome (option ProofFac * error) :=
  if negb (NonEmptyMultiBytes bzs ProofFacBytesParts)
  then Ret (None, Some "expected 11 byte parts to construct ProofFac"%string)
  else
    b0 <- index bzs 0 ;; b1 <- index bzs 1 ;; b2 <- index bzs 2 ;;
    b3 <- index bzs 3 ;; b4 <- index bzs 4 ;; b5 <- index bzs 5 ;;
    b6 <- index bzs 6 ;; b7 <- index bzs 7 ;; b8 <- index bzs 8 ;;
    b9 <- index bzs 9 ;; b10 <- index bzs 10 ;;
    Ret (Some {| P := big.SetBytes b0; Q := big.SetBytes b1;
                 A := big.SetBytes b2; B := big.SetBytes b3;
                 T := big.SetBytes b4; Sigma := big.SetBytes b5;
                 Z1 := big.SetBytes b6; Z2 := big.SetBytes b7;
                 W1 := big.SetBytes b8; W2 := big.SetBytes b9;
                 V := big.SetBytes b10 |},
         None).

Definition ValidateBasic (pf : option ProofFac) : outcome bool :=
  p <- deref pf ;;
  Ret (negb (isnil (P p)) && negb (isnil (Q p)) && negb (isnil (A p))
       && negb (isnil (B p)) && negb (isnil (T p)) && negb (isnil (Sigma p))
       && negb (isnil (Z1 p)) && negb (isnil (Z2 p)) && negb (isnil (W1 p))
       && negb (isnil (W2 p)) && negb (isnil (V p))).

(** [x.Cmp(y) != 0] turned around: the two integers are equal. *)
Definition cmp_is_zero (x y : big.Int) : outcome bool :=
  c <- big.Cmp x y ;; Ret (c =? 0).

(** [new(big.Int).GCD(nil, nil, a, b).Cmp(one) != 0] turned around. *)
Definition gcd_is_one (a b : big.Int) : outcome bool :=
  g <- big.GCD a b ;; cmp_is_zero g one.

Definition Verify (pf : option ProofFac) (ec : elliptic.Curve)
    (N0 NCap s t : big.Int) : outcome bool :=
  basic <- (if isnil pf then Ret false else ValidateBasic pf) ;;
  if negb basic || isnil ec || isnil N0 || isnil NCap || isnil s || isnil t
  then Ret false
  else
    sgN0 <- big.Sign N0 ;;
    if negb (sgN0 =? 1) then Ret false else
    sgNCap <- big.Sign NCap ;;
    if negb (sgNCap =? 1) then Ret false else
    pf <- deref pf ;;
    params <- elliptic.Params ec ;;
    let q := elliptic.N params in
    sqrtN0 <- big.Sqrt N0 ;;
    leSqrtN0 <- big.Mul rangeParameter q ;;
    leSqrtN0 <- big.Mul leSqrtN0 sqrtN0 ;;
    lNCap <- big.Mul rangeParameter NCap ;;
    lN0NCap <- big.Mul lNCap N0 ;;
    lN0NCapq <- big.Mul lN0NCap q ;;
    leN0NCap2 <- big.Lsh lN0NCapq 1 ;;
    lNCapq <- big.Mul lNCap q ;;
    leNCap2 <- big.Lsh lNCapq 1 ;;
    ensure IsInInterval (P pf) NCap ;;
    ensure IsInInterval (Q pf) NCap ;;
    ensure IsInInterval (A pf) NCap ;;
    ensure IsInInterval (B pf) NCap ;;
    ensure IsInInterval (T pf) NCap ;;
    ensure IsInInterval (Sigma pf) lN0NCap ;;
    ensure gcd_is_one (P pf) NCap ;;
    ensure gcd_is_one (Q pf) NCap ;;
    ensure gcd_is_one (A pf) NCap ;;
    ensure gcd_is_one (B pf) NCap ;;
    ensure gcd_is_one (T pf) NCap ;;
    ensure IsInInterval (W1 pf) leNCap2 ;;
    ensure IsInInterval (W2 pf) leNCap2 ;;
    ensure IsInInterval (V pf) leN0NCap2 ;;
    (* Fig 28. Range Check *)
    ensure IsInInterval (Z1 pf) leSqrtN0 ;;
    ensure IsInInterval (Z2 pf) leSqrtN0 ;;
    let eHash := SHA512_256i O [N0; NCap; s; t; P pf; Q pf; A pf; B pf;
                                T pf; Sigma pf] in
    let e := RejectionSample O q eHash in
    (* Fig 28. Equality Check *)
    let modNCap := ModInt NCap in
    sz1 <- modInt.Exp modNCap s (Z1 pf) ;;
    tw1 <- modInt.Exp modNCap t (W1 pf) ;;
    LHS <- modInt.Mul modNCap sz1 tw1 ;;
    pe <- modInt.Exp modNCap (P pf) e ;;
    RHS <- modInt.Mul modNCap (A pf) pe ;;
    ensure cmp_is_zero LHS RHS ;;
    sz2 <- modInt.Exp modNCap s (Z2 pf) ;;
    tw2 <- modInt.Exp modNCap t (W2 pf) ;;
    LHS <- modInt.Mul modNCap sz2 tw2 ;;
    qe <- modInt.Exp modNCap (Q pf) e ;;
    RHS <- modInt.Mul modNCap (B pf) qe ;;
    ensure cmp_is_zero LHS RHS ;;
    sN0 <- modInt.Exp modNCap s N0 ;;
    tsig <- modInt.Exp modNCap t (Sigma pf) ;;
    R <- modInt.Mul modNCap sN0 tsig ;;
    qz1 <- modInt.Exp modNCap (Q pf) (Z1 pf) ;;
    tv <- modInt.Exp modNCap t (V pf) ;;
    LHS <- modInt.Mul modNCap qz1 tv ;;
    re <- modInt.Exp modNCap R e ;;
    RHS <- modInt.Mul modNCap (T pf) re ;;
    ensure cmp_is_zero LHS RHS ;;
    Ret true.

Definition Bytes (pf : option ProofFac) : outcome (list (list byte)) :=
  p <- deref pf ;;
  b0 <- big.Bytes (P p) ;; b1 <- big.Bytes (Q p) ;; b2 <- big.Bytes (A p) ;;
  b3 <- big.Bytes (B p) ;; b4 <- big.Bytes (T p) ;;
  b5 <- big.Bytes (Sigma p) ;; b6 <- big.Bytes (Z1 p) ;;
  b7 <- big.Bytes (Z2 p) ;; b8 <- big.Bytes (W1 p) ;;
  b9 <- big.Bytes (W2 p) ;; b10 <- big.Bytes (V p) ;;
  Ret [b0; b1; b2; b3; b4; b5; b6; b7; b8; b9; b10].

(** The three equality checks of [Verify] (Fig 28) on their own: the
    challenge is recomputed and the three congruences are compared; no
    interval and no gcd is looked at. *)
Definition equality_checks (pf : ProofFac) (q N0 NCap s t : big.Int)
  : outcome bool :=
  let eHash := SHA512_256i O [N0; NCap; s; t; P pf; Q pf; A pf; B pf;
                              T pf; Sigma pf] in
  let e := RejectionSample O q eHash in
  sz1 <- big.Exp s (Z1 pf) NCap ;;
  tw1 <- big.Exp t (W1 pf) NCap ;;
  lhs1 <- modInt.Mul NCap sz1 tw1 ;;
  pe <- big.Exp (P pf) e NCap ;;
  rhs1 <- modInt.Mul NCap (A pf) pe ;;
  ensure cmp_is_zero lhs1 rhs1 ;;
  sz2 <- big.Exp s (Z2 pf) NCap ;;
  tw2 <- big.Exp t (W2 pf) NCap ;;
  lhs2 <- modInt.Mul NCap sz2 tw2 ;;
  qe <- big.Exp (Q pf) e NCap ;;
  rhs2 <- modInt.Mul NCap (B pf) qe ;;
  ensure cmp_is_zero lhs2 rhs2 ;;
  sN0 <- big.Exp s N0 NCap ;;
  tsig <- big.Exp t (Sigma pf) NCap ;;
  R <- modInt.Mul NCap sN0 tsig ;;
  qz1 <- big.Exp (Q pf) (Z1 pf) NCap ;;
  tv <- big.Exp t (V pf) NCap ;;
  lhs3 <- modInt.Mul NCap qz1 tv ;;
  re <- big.Exp R e NCap ;;
  rhs3 <- modInt.Mul NCap (T pf) re ;;
  ensure cmp_is_zero lhs3 rhs3 ;;
  Ret true.

End WithOracle.

End facproof.

(* ===================================================================== *)
(** ** The statement of the factorization proof, in the words of the
       specification *)
(* ===================================================================== *)

Module facspec.

Import facproof.

(** The security parameter l = 2^15. *)
Definition l : Z := 2 ^ 15.

(** [v] is an integer of [[0, bound)]. *)
Definition in_interval (v : big.Int) (bound : Z) : bool :=
  match v with
  | Some a => (0 <=? a) && (a <? bound)
  | None => false
  end.

(** [gcd(v, n) = 1] *)
Definition coprime_to (v : big.Int) (n : Z) : bool :=
  match v with
  | Some a => Z.gcd a n =? 1
  | None => false
  end.

(** P, Q, A, B, T in [0, NCap); Sigma in [0, l·N0·NCap); W1, W2 in
    [0, 2·l·q·NCap); V in [0, 2·l·q·N0·NCap); Z1, Z2 in [0, l·q·√N0). *)
Definition interval_checks (pf : ProofFac) (q n0 nc : Z) : bool :=
  in_interval (P pf) nc && in_interval (Q pf) nc && in_interval (A pf) nc
  && in_interval (B pf) nc && in_interval (T pf) nc
  && in_interval (Sigma pf) (l * n0 * nc)
  && in_interval (W1 pf) (2 * l * q * nc)
  && in_interval (W2 pf) (2 * l * q * nc)
  && in_interval (V pf) (2 * l * q * n0 * nc)
  && in_interval (Z1 pf) (l * q * Z.sqrt n0)
  && in_interval (Z2 pf) (l * q * Z.sqrt n0).

(** gcd(P, NCap) = gcd(Q, NCap) = gcd(A, NCap) = gcd(B, NCap) =
    gcd(T, NCap) = 1 *)
Definition coprimality_checks (pf : ProofFac) (nc : Z) : bool :=
  coprime_to (P pf) nc && coprime_to (Q pf) nc && coprime_to (A pf) nc
  && coprime_to (B pf) nc && coprime_to (T pf) nc.

(** Some field of the proof is nil. *)
Definition has_nil_field (pf : ProofFac) : bool :=
  isnil (P pf) || isnil (Q pf) || isnil (A pf) || isnil (B pf)
  || isnil (T pf) || isnil (Sigma pf) || isnil (Z1 pf) || isnil (Z2 pf)
  || isnil (W1 pf) || isnil (W2 pf) || isnil (V pf).

(** An honest run of the sampling of [NewProof] (step 3): alpha, beta in
    [0, l·q·√N0); mu, nu in [0, l·NCap); sigma in [0, l·NCap·N0); r in
    [0, l·NCap·N0·q) and coprime to it; x, y in [0, l·NCap·q). *)
Definition honest_draws (rnd : Draws) (q n0 nc : Z) : bool :=
  common.drawn_below (alpha rnd) (l * q * Z.sqrt n0)
  && common.drawn_below (beta rnd) (l * q * Z.sqrt n0)
  && common.drawn_below (mu rnd) (l * nc)
  && common.drawn_below (nu rnd) (l * nc)
  && common.drawn_below (sigma rnd) (l * nc * n0)
  && common.drawn_coprime_below (r rnd) (l * nc * n0 * q)
  && common.drawn_below (x rnd) (l * nc * q)
  && common.drawn_below (y rnd) (l * nc * q).

(** The responses of a proof that the verifier's intervals do not follow
    from the sampling intervals: Z1, Z2 below l·q·√N0 and V not negative. *)
Definition responses_in_range (pf : ProofFac) (q n0 : Z) : bool :=
  in_interval (Z1 pf) (l * q * Z.sqrt n0)
  && in_interval (Z2 pf) (l * q * Z.sqrt n0)
  && match V pf with Some v => 0 <=? v | None => false end.

(** The bits of a factor are in [1024-l, 1024+l], as the comment on
    [rangeParameter] has it; with l = 2^15 the lower end is negative, so
    that this limits the size of a factor from above only. *)
Definition in_declared_bit_range (p : Z) : bool :=
  (1024 - l <=? Z.log2 p + 1) && (Z.log2 p + 1 <=? 1024 + l).

(** The commitment s^a · t^b mod m. *)
Definition commit (m s t a b : Z) : Z := (s ^ a mod m) * (t ^ b mod m) mod m.

(** The proof of steps 4 and 6 of [Prove]: the commitments and the
    unreduced responses for the draws and the challenge [e]. *)
Definition honest_proof (nc s t p p' a b u v sg r x y e : Z) : ProofFac :=
  let vQ := commit nc s t p' v in
  {| P := Some (commit nc s t p u); Q := Some vQ;
     A := Some (commit nc s t a x); B := Some (commit nc s t b y);
     T := Some (commit nc vQ t a r); Sigma := Some sg;
     Z1 := Some (e * p + a); Z2 := Some (e * p' + b);
     W1 := Some (e * u + x); W2 := Some (e * v + y);
     V := Some (e * (sg - v * p) + r) |}.

(** A non-nil integer that is not negative. *)
Definition nonneg (v : big.Int) : bool :=
  match v with
  | Some a => 0 <=? a
  | None => false
  end.

(** A non-nil integer that is strictly positive. *)
Definition positive_field (v : big.Int) : bool :=
  match v with
  | Some a => 0 <? a
  | None => false
  end.

(** The draws are non-nil and, where they are used as exponents, not
    negative. *)
Definition nonneg_draws (rnd : Draws) : bool :=
  nonneg (alpha rnd) && nonneg (beta rnd) && nonneg (mu rnd)
  && nonneg (nu rnd) && negb (isnil (sigma rnd)) && nonneg (r rnd)
  && nonneg (x rnd) && nonneg (y rnd).

(** The eleven fields in the fixed order of the wire shape. *)
Definition fields (pf : ProofFac) : list big.Int :=
  [P pf; Q pf; A pf; B pf; T pf; Sigma pf; Z1 pf; Z2 pf; W1 pf; W2 pf; V pf].

Definition all_nonneg (pf : ProofFac) : bool := forallb nonneg (fields pf).

Definition all_positive (pf : ProofFac) : bool :=
  forallb positive_field (fields pf).

(** The minimal big-endian encoding of a field. *)
Definition field_bytes (v : big.Int) : list byte :=
  match v with
  | Some a => big.BytesZ a
  | None => []
  end.

(** The value of base-256 digits given least significant first. *)
Fixpoint le_value (ds : list byte) : N :=
  match ds with
  | [] => 0%N
  | d :: ds' => (Byte.to_N d + 256 * le_value ds')%N
  end.

(** The value of a big-endian unsigned integer, digit by digit. *)
Fixpoint big_endian (bs : list byte) : Z :=
  match bs with
  | [] => 0
  | b :: bs' =>
      big.byte_val b * 256 ^ Z.of_nat (List.length bs') + big_endian bs'
  end.

(** The proof whose fields are the eleven parts read as big-endian
    unsigned integers, in the order P, Q, A, B, T, Sigma, Z1, Z2, W1, W2,
    V. *)
Definition decode (bzs : list (list byte)) : ProofFac :=
  let part i := Some (big_endian (nth i bzs [])) in
  {| P := part 0%nat; Q := part 1%nat; A := part 2%nat; B := part 3%nat;
     T := part 4%nat; Sigma := part 5%nat; Z1 := part 6%nat;
     Z2 := part 7%nat; W1 := part 8%nat; W2 := part 9%nat;
     V := part 10%nat |}.

End facspec.

(* ===================================================================== *)
(** ** crypto/paillier: the public key, consumed as opaque integers *)
(* ===================================================================== *)

Module paillier.

(** Modelled from the spec: the declaration of [paillier.PublicKey] is
    missing from the sources; the spec gives the key as the modulus [N],
    the squared modulus [N²] and the generator [Γ], and the code reads the
    fields [N] and [Gamma] and calls [NSquare()] and [AsInts()]. *)
Record PublicKey : Type := { N : big.Int; Gamma : big.Int }.

Definition NSquare (pk : option PublicKey) : outcome big.Int :=
  k <- deref pk ;; big.Mul (N k) (N k).

Definition AsInts (pk : option PublicKey) : outcome (list big.Int) :=
  k <- deref pk ;; Ret [N k; Gamma k].

End paillier.

(* ===================================================================== *)
(** ** crypto/mta: Alice's range proof *)
(* ===================================================================== *)

(** [common/random], the sampler under the name the MtA code imports. *)
Module random.
Definition GetRandomPositiveInt := common.GetRandomPositiveInt.
Definition GetRandomPositiveRelativelyPrimeInt :=
  common.GetRandomPositiveRelativelyPrimeInt.
End random.

Module mta.

Import common.

Record RangeProofAlice : Type := {
  Z : big.Int; U : big.Int; W : big.Int; S : big.Int; S1 : big.Int;
  S2 : big.Int
}.

Definition zero : big.Int := big.NewInt 0.

(** The four draws of one run of [ProveRangeAlice], steps 1 to 4. *)
Record Draws : Type := {
  alpha : big.Int; beta : big.Int; gamma : big.Int; rho : big.Int
}.

Section WithCurve.
(** [tss.EC()], the curve of the process. *)
Variable EC : elliptic.Curve.
Variable O : Oracle.

(** ProveRangeAlice implements Alice's range proof used in the MtA and
    MtAwc protocols from GG18Spec (9) Fig. 9. *)
Definition ProveRangeAlice (rnd : Draws) (pk : option paillier.PublicKey)
    (c NTilde h1 h2 m r : big.Int) : outcome (option RangeProofAlice) :=
  params <- elliptic.Params EC ;;
  let q := elliptic.N params in
  q3 <- big.Mul q q ;;
  q3 <- big.Mul q q3 ;;
  qNTilde <- big.Mul q NTilde ;;
  q3NTilde <- big.Mul q3 NTilde ;;
  (* 1. *)
  let alpha := random.GetRandomPositiveInt (alpha rnd) q3 in
  (* 2. *)
  k <- deref pk ;;
  let beta :=
    random.GetRandomPositiveRelativelyPrimeInt (beta rnd) (paillier.N k) in
  (* 3. *)
  let gamma := random.GetRandomPositiveInt (gamma rnd) q3NTilde in
  (* 4. *)
  let rho := random.GetRandomPositiveInt (rho rnd) qNTilde in
  (* 5. *)
  let modNTilde := ModInt NTilde in
  z <- modInt.Exp modNTilde h1 m ;;
  h2rho <- modInt.Exp modNTilde h2 rho ;;
  z <- modInt.Mul modNTilde z h2rho ;;
  (* 6. *)
  nsq <- paillier.NSquare pk ;;
  let modNSquared := ModInt nsq in
  u <- modInt.Exp modNSquared (paillier.Gamma k) alpha ;;
  betaN <- modInt.Exp modNSquared beta (paillier.N k) ;;
  u <- modInt.Mul modNSquared u betaN ;;
  (* 7. *)
  w <- modInt.Exp modNTilde h1 alpha ;;
  h2gamma <- modInt.Exp modNTilde h2 gamma ;;
  w <- modInt.Mul modNTilde w h2gamma ;;
  (* 8-9. e' *)
  ints <- paillier.AsInts pk ;;
  let eHash := SHA512_256i O (ints ++ [c; z; u; w]) in
  let e := RejectionSample O q eHash in
  let modN := ModInt (paillier.N k) in
  s <- modInt.Exp modN r e ;;
  s <- modInt.Mul modN s beta ;;
  (* s1 = e * m + alpha *)
  s1 <- big.Mul e m ;;
  s1 <- big.Add s1 alpha ;;
  (* s2 = e * rho + gamma *)
  s2 <- big.Mul e rho ;;
  s2 <- big.Add s2 gamma ;;
  Ret (Some {| Z := z; U := u; W := w; S := s; S1 := s1; S2 := s2 |}).

Definition Verify (pf : option RangeProofAlice)
    (pk : option paillier.PublicKey) (NTilde h1 h2 c : big.Int)
  : outcome bool :=
  if isnil pf || isnil pk || isnil NTilde || isnil h1 || isnil h2 || isnil c
  then Ret false
  else
    k <- deref pk ;;
    N2 <- big.Mul (paillier.N k) (paillier.N k) ;;
    params <- elliptic.Params EC ;;
    let q := elliptic.N params in
    q3 <- big.Mul q q ;;
    q3 <- big.Mul q q3 ;;
    (* 3. *)
    p <- deref pf ;;
    cmp <- big.Cmp (S1 p) q3 ;;
    if cmp =? 1 then Ret false else
    (* 1-2. e' *)
    ints <- paillier.AsInts pk ;;
    let eHash := SHA512_256i O (ints ++ [c; Z p; U p; W p]) in
    let e := RejectionSample O q eHash in
    minusE <- big.Sub zero e ;;
    (* 4. gamma^s_1 * s^N * c^-e *)
    let modN2 := ModInt N2 in
    cExpMinusE <- modInt.Exp modN2 c minusE ;;
    sExpN <- modInt.Exp modN2 (S p) (paillier.N k) ;;
    gammaExpS1 <- modInt.Exp modN2 (paillier.Gamma k) (S1 p) ;;
    (* u != (4) *)
    products <- modInt.Mul modN2 gammaExpS1 sExpN ;;
    products <- modInt.Mul modN2 products cExpMinusE ;;
    cu <- big.Cmp (U p) products ;;
    if negb (cu =? 0) then Ret false else
    (* 5. h_1^s_1 * h_2^s_2 * z^-e *)
    let modNTilde := ModInt NTilde in
    h1ExpS1 <- modInt.Exp modNTilde h1 (S1 p) ;;
    h2ExpS2 <- modInt.Exp modNTilde h2 (S2 p) ;;
    zExpMinusE <- modInt.Exp modNTilde (Z p) minusE ;;
    (* w != (5) *)
    products <- modInt.Mul modNTilde h1ExpS1 h2ExpS2 ;;
    products <- modInt.Mul modNTilde products zExpMinusE ;;
    cw <- big.Cmp (W p) products ;;
    if negb (cw =? 0) then Ret false else
    Ret true.

(** Steps 1-2, 4 and 5 of [Verify] on their own: the challenge is
    recomputed and the two equalities are compared; the bound of step 3 is
    not looked at. *)
Definition equality_checks (p : RangeProofAlice) (k : paillier.PublicKey)
    (q NTilde h1 h2 c : big.Int) : outcome bool :=
  N2 <- big.Mul (paillier.N k) (paillier.N k) ;;
  let eHash := SHA512_256i O ([paillier.N k; paillier.Gamma k]
                              ++ [c; Z p; U p; W p]) in
  let e := RejectionSample O q eHash in
  minusE <- big.Sub zero e ;;
  cExpMinusE <- big.Exp c minusE N2 ;;
  sExpN <- big.Exp (S p) (paillier.N k) N2 ;;
  gammaExpS1 <- big.Exp (paillier.Gamma k) (S1 p) N2 ;;
  lhs4 <- modInt.Mul N2 gammaExpS1 sExpN ;;
  lhs4 <- modInt.Mul N2 lhs4 cExpMinusE ;;
  eq4 <- big.Cmp (U p) lhs4 ;;
  if negb (eq4 =? 0) then Ret false else
  h1ExpS1 <- big.Exp h1 (S1 p) NTilde ;;
  h2ExpS2 <- big.Exp h2 (S2 p) NTilde ;;
  zExpMinusE <- big.Exp (Z p) minusE NTilde ;;
  lhs5 <- modInt.Mul NTilde h1ExpS1 h2ExpS2 ;;
  lhs5 <- modInt.Mul NTilde lhs5 zExpMinusE ;;
  eq5 <- big.Cmp (W p) lhs5 ;;
  if negb (eq5 =? 0) then Ret false else
  Ret true.

End WithCurve.

End mta.

(* ===================================================================== *)
(** ** The statement of Alice's range proof, in the words of the
       specification *)
(* ===================================================================== *)

Module mtaspec.

(** All six fields of the proof are non-nil. *)
Definition alice_complete (p : mta.RangeProofAlice) : bool :=
  negb (isnil (mta.Z p)) && negb (isnil (mta.U p)) && negb (isnil (mta.W p))
  && negb (isnil (mta.S p)) && negb (isnil (mta.S1 p))
  && negb (isnil (mta.S2 p)).

(** The draws are non-nil and, where they are used as exponents, not
    negative. *)
Definition nonneg_draws (rnd : mta.Draws) : bool :=
  facspec.nonneg (mta.alpha rnd) && negb (isnil (mta.beta rnd))
  && facspec.nonneg (mta.gamma rnd) && facspec.nonneg (mta.rho rnd).

End mtaspec.

(* ===================================================================== *)
(** ** Small concrete runs *)
(* ===================================================================== *)

Module fixtures.

(** A group of order 7. *)
Definition ec7 : elliptic.Curve := Some {| elliptic.N := Some 7 |}.

(** Draws for q = 7, N0 = 15 = 3·5 and NCap = 11: the bounds are
    l·q·√N0 = 688128, l·NCap = 360448, l·NCap·N0 = 5406720. *)
Definition draws_small : facproof.Draws :=
  {| facproof.alpha := Some 5; facproof.beta := Some 6;
     facproof.mu := Some 1; facproof.nu := Some 2;
     facproof.sigma := Some 100000; facproof.r := Some 1;
     facproof.x := Some 4; facproof.y := Some 9 |}.

(** The same draws with alpha at the top of its interval. *)
Definition draws_top : facproof.Draws :=
  {| facproof.alpha := Some 688127; facproof.beta := Some 6;
     facproof.mu := Some 1; facproof.nu := Some 2;
     facproof.sigma := Some 100000; facproof.r := Some 1;
     facproof.x := Some 4; facproof.y := Some 9 |}.

(** The same draws with sigma and nu drawn as 0. *)
Definition draws_zero_sigma : facproof.Draws :=
  {| facproof.alpha := Some 5; facproof.beta := Some 6;
     facproof.mu := Some 1; facproof.nu := Some 0;
     facproof.sigma := Some 0; facproof.r := Some 1;
     facproof.x := Some 4; facproof.y := Some 9 |}.

(** The challenge oracles of the runs below answer 3, respectively 1. *)
Definition oracle3 : common.Oracle := common.constant_oracle (Some 3).
Definition oracle1 : common.Oracle := common.constant_oracle (Some 1).

(** A Paillier key N = 15 with generator N + 1, and the ciphertext of
    m = 2 under the randomness r = 2: c = 16^2 · 2^15 mod 225 = 158. *)
Definition alice_key : paillier.PublicKey :=
  {| paillier.N := Some 15; paillier.Gamma := Some 16 |}.
Definition alice_c : big.Int := Some 158.

Definition alice_draws : mta.Draws :=
  {| mta.alpha := Some 10; mta.beta := Some 2; mta.gamma := Some 20;
     mta.rho := Some 4 |}.

(** A proof over the unit bases h1 = h2 = 1 and the ciphertext 1 whose
    commitments are all 1, with a chosen response S1. *)
Definition unit_key : paillier.PublicKey :=
  {| paillier.N := Some 5; paillier.Gamma := Some 1 |}.
Definition unit_proof (s1 : big.Int) : mta.RangeProofAlice :=
  {| mta.Z := Some 1; mta.U := Some 1; mta.W := Some 1; mta.S := Some 1;
     mta.S1 := s1; mta.S2 := Some 0 |}.

End fixtures.

(* ===================================================================== *)
(** ** The verifier of the factorization proof as congruences *)
(* ===================================================================== *)

Module facmath.

Import facproof.

(** The integer behind a non-nil pointer (0 behind nil). *)
Definition val (v : big.Int) : Z :=
  match v with
  | Some a => a
  | None => 0
  end.

(** x ≡ y (mod m) *)
Definition congruent (m x y : Z) : bool := x mod m =? y mod m.

(** The three equalities of the verifier for the challenge [e]:
    s^Z1 · t^W1 ≡ A · P^e, s^Z2 · t^W2 ≡ B · Q^e and, with
    R = s^N0 · t^Sigma mod NCap, Q^Z1 · t^V ≡ T · R^e (mod NCap). *)
Definition equalities (pf : ProofFac) (e n0 nc s t : Z) : bool :=
  congruent nc (s ^ val (Z1 pf) * t ^ val (W1 pf))
               (val (A pf) * val (P pf) ^ e)
  && congruent nc (s ^ val (Z2 pf) * t ^ val (W2 pf))
                  (val (B pf) * val (Q pf) ^ e)
  && congruent nc (val (Q pf) ^ val (Z1 pf) * t ^ val (V pf))
                  (val (T pf) * ((s ^ n0 * t ^ val (Sigma pf)) mod nc) ^ e).

(** The challenge that [Verify] recomputes from the statement and the
    commitments of the proof. *)
Definition challenge_of (O : common.Oracle) (pf : ProofFac) (q n0 nc s t : Z)
  : big.Int :=
  common.RejectionSample O (Some q)
    (common.SHA512_256i O
       [Some n0; Some nc; Some s; Some t; P pf; Q pf; A pf; B pf; T pf;
        Sigma pf]).

(** The proof whose commitments are all 1 and whose responses are all 0. *)
Definition trivial_proof : ProofFac :=
  {| P := Some 1; Q := Some 1; A := Some 1; B := Some 1; T := Some 1;
     Sigma := Some 0; Z1 := Some 0; Z2 := Some 0; W1 := Some 0;
     W2 := Some 0; V := Some 0 |}.

(** Some argument of [NewProof] is nil. *)
Definition some_nil (ec : elliptic.Curve) (N0 NCap s t N0p N0q : big.Int)
  : bool :=
  isnil ec || isnil N0 || isnil NCap || isnil s || isnil t || isnil N0p
  || isnil N0q.

(** What a proof returned by [NewProof] looks like: the curve, NCap, the
    factors and the draws were non-nil and NCap not zero; the five
    commitments are in [[0, |NCap|)]; Sigma is the draw; the responses are
    the unreduced integers e·N0p + alpha, e·N0q + beta, e·mu + x, e·nu + y
    and e·(sigma - nu·N0p) + r, for the challenge [e] of the statement and
    the proof's own commitments. *)
Definition output_shape (O : common.Oracle) (rnd : Draws)
    (ec : elliptic.Curve) (N0 NCap s t N0p N0q : big.Int) (pf : ProofFac)
  : Prop :=
  exists c n e p p' a b u v sg r x y,
    ec = Some c /\ NCap = Some n /\ n <> 0
    /\ N0p = Some p /\ N0q = Some p'
    /\ rnd = {| alpha := Some a; beta := Some b; mu := Some u; nu := Some v;
                sigma := Some sg; r := Some r; x := Some x; y := Some y |}
    /\ common.RejectionSample O (elliptic.N c)
         (common.SHA512_256i O
            [N0; NCap; s; t; P pf; Q pf; A pf; B pf; T pf; Sigma pf])
       = Some e
    /\ facspec.in_interval (P pf) (Z.abs n) = true
    /\ facspec.in_interval (Q pf) (Z.abs n) = true
    /\ facspec.in_interval (A pf) (Z.abs n) = true
    /\ facspec.in_interval (B pf) (Z.abs n) = true
    /\ facspec.in_interval (T pf) (Z.abs n) = true
    /\ Sigma pf = Some sg
    /\ Z1 pf = Some (e * p + a) /\ Z2 pf = Some (e * p' + b)
    /\ W1 pf = Some (e * u + x) /\ W2 pf = Some (e * v + y)
    /\ V pf = Some (e * (sg - v * p) + r).

End facmath.

(* ===================================================================== *)
(** ** The wire shape of the factorization proof *)
(* ===================================================================== *)

Module facwire.

Import facproof.

(** [bs] without its leading zero bytes. *)
Fixpoint strip_zeros (bs : list byte) : list byte :=
  match bs with
  | [] => []
  | b :: bs' => if (Byte.to_N b =? 0)%N then strip_zeros bs' else bs
  end.

(** Least-significant-first digits whose most significant digit is not
    zero. *)
Inductive canonical : list byte -> Prop :=
| canonical_nil : canonical []
| canonical_top d : Byte.to_N d <> 0%N -> canonical [d]
| canonical_cons d ds : ds <> [] -> canonical ds -> canonical (d :: ds).

Definition abs_field (v : big.Int) : big.Int := option_map Z.abs v.

(** The proof with every field replaced by its absolute value. *)
Definition abs_proof (pf : ProofFac) : ProofFac :=
  {| P := abs_field (P pf); Q := abs_field (Q pf); A := abs_field (A pf);
     B := abs_field (B pf); T := abs_field (T pf);
     Sigma := abs_field (Sigma pf); Z1 := abs_field (Z1 pf);
     Z2 := abs_field (Z2 pf); W1 := abs_field (W1 pf);
     W2 := abs_field (W2 pf); V := abs_field (V pf) |}.

(** A non-nil integer that is not zero. *)
Definition nonzero_field (v : big.Int) : bool :=
  match v with
  | Some a => negb (a =? 0)
  | None => false
  end.

Definition all_nonzero (pf : ProofFac) : bool :=
  forallb nonzero_field (facspec.fields pf).

(** The six fields that [Verify] lets be zero are not zero. *)
Definition nonzero_responses (pf : ProofFac) : bool :=
  forallb nonzero_field [Sigma pf; Z1 pf; Z2 pf; W1 pf; W2 pf; V pf].

(** Every field is a non-negative integer below 256^(length of its
    part). *)
Definition within_parts (bzs : list (list byte)) (pf : ProofFac) : Prop :=
  Forall2 (fun part field =>
             exists v, field = Some v
                       /\ 0 <= v < 256 ^ Z.of_nat (List.length part))
          bzs (facspec.fields pf).

End facwire.

(* ===================================================================== *)
(** ** The verifier of Alice's range proof as congruences *)
(* ===================================================================== *)

Module mtamath.

(** Check 1 of the verifier for the challenge [e], mod N²:
    U = Γ^S1 · S^N · c^(-e). *)
Definition ciphertext_check (p : mta.RangeProofAlice) (g n c e : Z) : bool :=
  facmath.val (mta.U p)
  =? (g ^ facmath.val (mta.S1 p) * facmath.val (mta.S p) ^ n
      * Z.invmod c (n * n) ^ e) mod (n * n).

(** Check 2 of the verifier for the challenge [e], mod NTilde:
    W = h1^S1 · h2^S2 · Z^(-e). *)
Definition commitment_check (p : mta.RangeProofAlice) (nt h1 h2 e : Z)
  : bool :=
  facmath.val (mta.W p)
  =? (h1 ^ facmath.val (mta.S1 p) * h2 ^ facmath.val (mta.S2 p)
      * Z.invmod (facmath.val (mta.Z p)) nt ^ e) mod nt.

(** The challenge that [Verify] recomputes from the key, the ciphertext
    and the commitments of the proof. *)
Definition challenge_of (O : common.Oracle) (k : paillier.PublicKey)
    (q : Z) (c : big.Int) (p : mta.RangeProofAlice) : big.Int :=
  common.RejectionSample O (Some q)
    (common.SHA512_256i O
       ([paillier.N k; paillier.Gamma k] ++ [c; mta.Z p; mta.U p; mta.W p])).

(** The proof that [ProveRangeAlice] builds from the draws and the
    challenge [e] (steps 5 to 9). *)
Definition honest_proof (n g nt h1 h2 m r a b ga rho e : Z)
  : mta.RangeProofAlice :=
  {| mta.Z := Some (facspec.commit nt h1 h2 m rho);
     mta.U := Some (facspec.commit (n * n) g b a n);
     mta.W := Some (facspec.commit nt h1 h2 a ga);
     mta.S := Some ((r ^ e mod n) * b mod n);
     mta.S1 := Some (e * m + a);
     mta.S2 := Some (e * rho + ga) |}.

(** What a proof returned by [ProveRangeAlice] looks like: the curve, the
    key, its modulus, NTilde, the plaintext and the draws were non-nil and
    the moduli not zero; Z and W are in [[0, |NTilde|)], U in [[0, N²)], S in
    [[0, |N|)]; the responses are the unreduced integers e·m + alpha and
    e·rho + gamma, for the challenge [e] of the key, the ciphertext and the
    proof's own commitments. *)
Definition output_shape (EC : elliptic.Curve) (O : common.Oracle)
    (rnd : mta.Draws) (pk : option paillier.PublicKey)
    (c NTilde m : big.Int) (p : mta.RangeProofAlice) : Prop :=
  exists ec k n nt e mv a b ga rho,
    EC = Some ec /\ pk = Some k /\ paillier.N k = Some n /\ n <> 0
    /\ NTilde = Some nt /\ nt <> 0 /\ m = Some mv
    /\ rnd = {| mta.alpha := Some a; mta.beta := Some b;
                mta.gamma := Some ga; mta.rho := Some rho |}
    /\ common.RejectionSample O (elliptic.N ec)
         (common.SHA512_256i O
            ([paillier.N k; paillier.Gamma k]
               ++ [c; mta.Z p; mta.U p; mta.W p]))
       = Some e
    /\ facspec.in_interval (mta.Z p) (Z.abs nt) = true
    /\ facspec.in_interval (mta.W p) (Z.abs nt) = true
    /\ facspec.in_interval (mta.U p) (n * n) = true
    /\ facspec.in_interval (mta.S p) (Z.abs n) = true
    /\ mta.S1 p = Some (e * mv + a)
    /\ mta.S2 p = Some (e * rho + ga).

End mtamath.

(* ===================================================================== *)
(** ** More small concrete runs *)
(* ===================================================================== *)

Module runs.

(** The proof of the run [fixtures.draws_small] with the challenge 3. *)
Definition small_proof : facproof.ProofFac :=
  facspec.honest_proof 11 2 3 3 5 5 6 1 2 100000 1 4 9 3.

(** A proof with negative fields. *)
Definition signed_proof : facproof.ProofFac :=
  {| facproof.P := Some (-2); facproof.Q := Some 3; facproof.A := Some (-5);
     facproof.B := Some 7; facproof.T := Some 11;
     facproof.Sigma := Some (-300); facproof.Z1 := Some 1;
     facproof.Z2 := Some 2; facproof.W1 := Some (-65536);
     facproof.W2 := Some 4; facproof.V := Some 5 |}.

(** A proof with a nil field. *)
Definition partial_proof : facproof.ProofFac :=
  {| facproof.P := Some 2; facproof.Q := Some 3; facproof.A := Some 5;
     facproof.B := Some 7; facproof.T := Some 11;
     facproof.Sigma := None; facproof.Z1 := Some 1;
     facproof.Z2 := Some 2; facproof.W1 := Some 3;
     facproof.W2 := Some 4; facproof.V := Some 5 |}.

(** Eleven parts with a leading zero byte each. *)
Definition padded_parts : list (list byte) := repeat [x00; x01; x02] 11.

(** The proof of the run [fixtures.alice_draws] with the challenge 3. *)
Definition alice_proof : mta.RangeProofAlice :=
  mtamath.honest_proof 15 16 11 2 3 2 2 10 2 20 4 3.

Definition alice_pk : paillier.PublicKey :=
  {| paillier.N := Some 15; paillier.Gamma := Some 16 |}.

End runs.

(* ===================================================================== *)
(** * Properties *)
(* ===================================================================== *)

Import facspec mtaspec.

(* ===================================================================== *)
(** ** facproof: the guards and the checks of [Verify] *)
(* ===================================================================== *)

Section VerifyGuards.
Import facproof.

Lemma ValidateBasic_value (p : ProofFac) :
  ValidateBasic (Some p) = Ret (negb (facspec.has_nil_field p)).
Proof.
  unfold ValidateBasic, facspec.has_nil_field. cbn [deref bind].
  rewrite !negb_orb. reflexivity.
Qed.

Lemma sgn_is_one (n : Z) : (Z.sgn n =? 1) = (0 <? n).
Proof.
  destruct n; reflexivity.
Qed.

Lemma Verify_nil_guard O pf ec N0 NCap s t :
  pf = None \/ ec = None \/ N0 = None \/ NCap = None \/ s = None \/ t = None ->
  Verify O pf ec N0 NCap s t = Ret false.
Proof.
  intros H. unfold Verify.
  destruct pf as [p|]; cbn [isnil bind].
  - rewrite ValidateBasic_value. cbn [bind].
    destruct (negb (negb (facspec.has_nil_field p))); [reflexivity|].
    cbn [orb].
    destruct H as [H | [-> | [-> | [-> | [-> | ->]]]]];
      [discriminate | ..]; cbn [isnil orb];
      rewrite ?orb_true_r; reflexivity.
  - reflexivity.
Qed.
End VerifyGuards.

Section VerifyChecks.
Import facproof.

Lemma cmp_zero_eqb (a b : Z) :
  (match a ?= b with Lt => -1 | Eq => 0 | Gt => 1 end =? 0) = (a =? b).
Proof.
  destruct (Z.eqb_spec a b) as [->|Hne].
  - now rewrite Z.compare_refl.
  - destruct (Z.compare_spec a b); [contradiction | reflexivity | reflexivity].
Qed.

Lemma IsInInterval_spec (a b : Z) :
  common.IsInInterval (Some a) (Some b) = Ret (facspec.in_interval (Some a) b).
Proof.
  unfold common.IsInInterval, facspec.in_interval. cbn [deref bind].
  now rewrite andb_comm.
Qed.

Lemma gcd_is_one_spec (a n : Z) :
  gcd_is_one (Some a) (Some n) = Ret (facspec.coprime_to (Some a) n).
Proof.
  unfold gcd_is_one, cmp_is_zero, big.GCD, big.Cmp, one, big.NewInt,
    facspec.coprime_to.
  cbn [deref bind]. now rewrite cmp_zero_eqb.
Qed.

Lemma bound_lN0NCap (n0 nc : Z) :
  Z.shiftl 1 15 * nc * n0 = facspec.l * n0 * nc.
Proof. unfold facspec.l. change (Z.shiftl 1 15) with (2 ^ 15). ring. Qed.

Lemma bound_leNCap2 (q nc : Z) :
  Z.shiftl (Z.shiftl 1 15 * nc * q) (Z.of_nat 1) = 2 * facspec.l * q * nc.
Proof.
  unfold facspec.l. change (Z.shiftl 1 15) with (2 ^ 15).
  rewrite Z.shiftl_mul_pow2 by (cbn; lia). change (2 ^ Z.of_nat 1) with 2. ring.
Qed.

Lemma bound_leN0NCap2 (q n0 nc : Z) :
  Z.shiftl (Z.shiftl 1 15 * nc * n0 * q) (Z.of_nat 1)
  = 2 * facspec.l * q * n0 * nc.
Proof.
  unfold facspec.l. change (Z.shiftl 1 15) with (2 ^ 15).
  rewrite Z.shiftl_mul_pow2 by (cbn; lia). change (2 ^ Z.of_nat 1) with 2. ring.
Qed.

Lemma bound_leSqrtN0 (q n0 : Z) :
  Z.shiftl 1 15 * q * Z.sqrt n0 = facspec.l * q * Z.sqrt n0.
Proof. reflexivity. Qed.

Lemma nil_field_free_inv (p : ProofFac) :
  facspec.has_nil_field p = false ->
  exists vP vQ vA vB vT vS vZ1 vZ2 vW1 vW2 vV,
    p = {| P := Some vP; Q := Some vQ; A := Some vA; B := Some vB;
           T := Some vT; Sigma := Some vS; Z1 := Some vZ1; Z2 := Some vZ2;
           W1 := Some vW1; W2 := Some vW2; V := Some vV |}.
Proof.
  destruct p as [fP fQ fA fB fT fS fZ1 fZ2 fW1 fW2 fV].
  unfold facspec.has_nil_field. cbn [P Q A B T Sigma Z1 Z2 W1 W2 V].
  intros H.
  destruct fP; [|discriminate]. destruct fQ; [|discriminate].
  destruct fA; [|discriminate]. destruct fB; [|discriminate].
  destruct fT; [|discriminate]. destruct fS; [|discriminate].
  destruct fZ1; [|discriminate]. destruct fZ2; [|discriminate].
  destruct fW1; [|discriminate]. destruct fW2; [|discriminate].
  destruct fV; [|discriminate].
  repeat eexists.
Qed.

Lemma Verify_unfold O (p : ProofFac) (q n0 nc sv tv : Z) :
  facspec.has_nil_field p = false -> 0 < n0 -> 0 < nc ->
  Verify O (Some p) (Some {| elliptic.N := Some q |}) (Some n0) (Some nc)
         (Some sv) (Some tv)
  = if facspec.interval_checks p q n0 nc && facspec.coprimality_checks p nc
    then equality_checks O p (Some q) (Some n0) (Some nc) (Some sv) (Some tv)
    else Ret false.
Proof.
  intros Hnil Hn0 Hnc.
  unfold Verify. rewrite ValidateBasic_value, Hnil.
  destruct (nil_field_free_inv p Hnil)
    as (vP & vQ & vA & vB & vT & vS & vZ1 & vZ2 & vW1 & vW2 & vV & ->).
  unfold facspec.interval_checks, facspec.coprimality_checks, equality_checks.
  cbn [isnil bind deref negb orb elliptic.Params elliptic.N big.Sign big.Sqrt
       big.Mul big.Lsh rangeParameter P Q A B T Sigma Z1 Z2 W1 W2 V
       common.ModInt common.modInt.Exp].
  assert (E1 : (0 <? n0) = true) by (apply Z.ltb_lt; lia).
  assert (E2 : (0 <? nc) = true) by (apply Z.ltb_lt; lia).
  assert (E3 : (n0 <? 0) = false) by (apply Z.ltb_ge; lia).
  rewrite (sgn_is_one n0), E1, (sgn_is_one nc), E2, E3.
  unfold common.modInt.Exp, common.ModInt.
  cbn [negb bind deref].
  rewrite !IsInInterval_spec, !gcd_is_one_spec.
  rewrite bound_leNCap2, bound_leN0NCap2, bound_lN0NCap, bound_leSqrtN0.
  cbn [bind].
  repeat match goal with
         | |- (if ?b then _ else Ret false) = _ =>
             destruct b;
             [ | rewrite ?andb_false_r, ?andb_false_l; reflexivity ]
         end.
  reflexivity.
Qed.
End VerifyChecks.

Section VerifyClaims.
Import facproof.

Lemma Verify_nil_field O p ec N0 NCap s t :
  facspec.has_nil_field p = true ->
  Verify O (Some p) ec N0 NCap s t = Ret false.
Proof.
  intros H. unfold Verify. rewrite ValidateBasic_value, H. reflexivity.
Qed.

Lemma Verify_nonpositive O pf ec N0 NCap s t :
  (exists n, N0 = Some n /\ n <= 0) \/ (exists n, NCap = Some n /\ n <= 0) ->
  Verify O pf ec N0 NCap s t = Ret false.
Proof.
  intros H.
  destruct pf as [p|]; [|apply Verify_nil_guard; auto].
  destruct (facspec.has_nil_field p) eqn:Hnil;
    [now apply Verify_nil_field|].
  destruct ec as [c|]; [|apply Verify_nil_guard; auto].
  destruct N0 as [n0|]; [|apply Verify_nil_guard; auto].
  destruct NCap as [nc|]; [|apply Verify_nil_guard; auto 6].
  destruct s as [sv|]; [|apply Verify_nil_guard; auto 6].
  destruct t as [tv|]; [|apply Verify_nil_guard; auto 7].
  unfold Verify. rewrite ValidateBasic_value, Hnil.
  cbn [isnil bind deref negb orb big.Sign].
  rewrite (sgn_is_one n0), (sgn_is_one nc).
  destruct (Z.ltb_spec 0 n0) as [Hn0|Hn0]; cbn [negb]; [|reflexivity].
  destruct (Z.ltb_spec 0 nc) as [Hnc|Hnc]; cbn [negb]; [|reflexivity].
  destruct H as [(n & [= <-] & Hle) | (n & [= <-] & Hle)]; lia.
Qed.

(** C5: [ProofFac.Verify] returns false, and does not panic, whenever the
    proof is nil, one of its eleven fields is nil, one of the public
    inputs ec, N0, NCap, s, t is nil, N0 <= 0 or NCap <= 0. *)
Theorem Verify_short_circuits O pf ec N0 NCap s t :
  pf = None
  \/ (exists p, pf = Some p /\ facspec.has_nil_field p = true)
  \/ ec = None \/ N0 = None \/ NCap = None \/ s = None \/ t = None
  \/ (exists n, N0 = Some n /\ n <= 0)
  \/ (exists n, NCap = Some n /\ n <= 0) ->
  Verify O pf ec N0 NCap s t = Ret false.
Proof.
  intros [H | [(p & -> & H) | [H | [H | [H | [H | [H | H]]]]]]].
  - apply Verify_nil_guard; auto.
  - now apply Verify_nil_field.
  - apply Verify_nil_guard; auto.
  - apply Verify_nil_guard; auto.
  - apply Verify_nil_guard; auto 6.
  - apply Verify_nil_guard; auto 6.
  - apply Verify_nil_guard; auto 7.
  - now apply Verify_nonpositive.
Qed.

(** C3: for a proof without nil field and positive N0 and NCap,
    [ProofFac.Verify] returns false as soon as one of the interval checks
    (P, Q, A, B, T in [0, NCap); Sigma in [0, l·N0·NCap); W1, W2 in
    [0, 2·l·q·NCap); V in [0, 2·l·q·N0·NCap); Z1, Z2 in [0, l·q·√N0)) or one
    of the five checks gcd(., NCap) = 1 fails, whatever the equality checks
    would give; it returns true only when all of them hold; and when all of
    them hold its result is the one of the three equality checks. *)
Theorem Verify_interval_and_gcd_checks O (p : ProofFac) (q n0 nc sv tv : Z) :
  facspec.has_nil_field p = false -> 0 < n0 -> 0 < nc ->
  let run := Verify O (Some p) (Some {| elliptic.N := Some q |})
                    (Some n0) (Some nc) (Some sv) (Some tv) in
  (facspec.interval_checks p q n0 nc = false \/
   facspec.coprimality_checks p nc = false -> run = Ret false)
  /\ (run = Ret true ->
      facspec.interval_checks p q n0 nc = true
      /\ facspec.coprimality_checks p nc = true)
  /\ (facspec.interval_checks p q n0 nc = true ->
      facspec.coprimality_checks p nc = true ->
      run = equality_checks O p (Some q) (Some n0) (Some nc)
                            (Some sv) (Some tv)).
Proof.
  intros Hnil Hn0 Hnc run. subst run.
  rewrite (Verify_unfold O p q n0 nc sv tv Hnil Hn0 Hnc).
  split; [|split].
  - intros [-> | ->]; [reflexivity | now rewrite andb_false_r].
  - destruct (facspec.interval_checks p q n0 nc);
      destruct (facspec.coprimality_checks p nc); cbn [andb];
      intros H; (discriminate H || auto).
  - intros -> ->. reflexivity.
Qed.
End VerifyClaims.

(* ===================================================================== *)
(** ** math/big: byte encoding *)
(* ===================================================================== *)

Section Encoding.

Lemma byte_of_to_N (n : N) : (n < 256)%N -> Byte.to_N (big.byte_of n) = n.
Proof.
  intros Hn. unfold big.byte_of.
  destruct (Byte.of_N n) as [b|] eqn:E.
  - now apply Byte.to_of_N.
  - apply Byte.of_N_None_iff in E. lia.
Qed.

Lemma digits_value (fuel : nat) :
  forall n : N, (n < 2 ^ N.of_nat fuel)%N -> le_value (big.digits fuel n) = n.
Proof.
  induction fuel as [|fuel IH]; intros n Hn.
  - cbn in Hn. cbn. lia.
  - cbn [big.digits]. destruct (N.eqb_spec n 0) as [->|Hne]; [reflexivity|].
    cbn [le_value]. rewrite byte_of_to_N by (apply N.mod_lt; lia).
    rewrite IH.
    + rewrite (N.div_mod n 256) at 3 by lia. lia.
    + rewrite Nat2N.inj_succ, N.pow_succ_r' in Hn.
      apply N.Div0.div_lt_upper_bound. lia.
Qed.

Lemma SetBytesZ_app (bs : list byte) (b : byte) :
  big.SetBytesZ (bs ++ [b]) = big.SetBytesZ bs * 256 + big.byte_val b.
Proof.
  unfold big.SetBytesZ. now rewrite fold_left_app.
Qed.

Lemma SetBytesZ_rev (ds : list byte) :
  big.SetBytesZ (rev ds) = Z.of_N (le_value ds).
Proof.
  induction ds as [|d ds IH]; [reflexivity|].
  cbn [rev le_value]. rewrite SetBytesZ_app, IH. unfold big.byte_val. lia.
Qed.

Lemma SetBytesZ_BytesZ (a : Z) : big.SetBytesZ (big.BytesZ a) = Z.abs a.
Proof.
  unfold big.BytesZ. rewrite SetBytesZ_rev, digits_value.
  - apply N2Z.inj_abs_N.
  - rewrite N2Nat.id. apply N.size_gt.
Qed.

Lemma BytesZ_nonempty (a : Z) : a <> 0 -> big.BytesZ a <> [].
Proof.
  intros Ha E. pose proof (SetBytesZ_BytesZ a) as H.
  rewrite E in H. cbn in H. lia.
Qed.

Lemma BytesZ_zero : big.BytesZ 0 = [].
Proof. reflexivity. Qed.

Lemma SetBytesZ_from (bs : list byte) (acc : Z) :
  fold_left (fun acc b => acc * 256 + big.byte_val b) bs acc
  = acc * 256 ^ Z.of_nat (List.length bs) + big_endian bs.
Proof.
  revert acc. induction bs as [|b bs IH]; intros acc.
  - cbn. lia.
  - cbn [fold_left big_endian List.length]. rewrite IH.
    rewrite Nat2Z.inj_succ, Z.pow_succ_r by lia. ring.
Qed.

Lemma SetBytesZ_big_endian (bs : list byte) : big.SetBytesZ bs = big_endian bs.
Proof.
  unfold big.SetBytesZ. rewrite SetBytesZ_from. lia.
Qed.

End Encoding.

(* ===================================================================== *)
(** ** mta: [RangeProofAlice.Verify] *)
(* ===================================================================== *)

Section AliceVerify.

Lemma Cmp_is_one (a b : Z) :
  (match a ?= b with Lt => -1 | Eq => 0 | Gt => 1 end =? 1) = (b <? a).
Proof.
  rewrite Z.ltb_antisym, Z.leb_compare.
  destruct (a ?= b); reflexivity.
Qed.

Lemma alice_Verify_unfold EC O (p : mta.RangeProofAlice) (k : paillier.PublicKey)
    (q n s1 : Z) (NTilde h1 h2 c : big.Int) :
  EC = Some {| elliptic.N := Some q |} ->
  paillier.N k = Some n -> mta.S1 p = Some s1 ->
  NTilde <> None -> h1 <> None -> h2 <> None -> c <> None ->
  mta.Verify EC O (Some p) (Some k) NTilde h1 h2 c
  = if q ^ 3 <? s1 then Ret false
    else mta.equality_checks O p k (Some q) NTilde h1 h2 c.
Proof.
  intros -> Hn Hs1 HNT Hh1 Hh2 Hc.
  destruct NTilde as [nt|]; [|contradiction].
  destruct h1 as [v1|]; [|contradiction].
  destruct h2 as [v2|]; [|contradiction].
  destruct c as [vc|]; [|contradiction].
  unfold mta.Verify, mta.equality_checks.
  cbn [isnil orb deref bind elliptic.Params elliptic.N paillier.AsInts].
  rewrite Hn, Hs1.
  cbn [big.Mul big.Cmp deref bind].
  rewrite Cmp_is_one.
  replace (q * (q * q)) with (q ^ 3) by ring.
  destruct (q ^ 3 <? s1); [reflexivity|].
  unfold common.modInt.Exp, common.ModInt. cbn [app].
  reflexivity.
Qed.

End AliceVerify.

Section AliceVerifyClaims.

Lemma alice_Verify_nil_arguments EC O pf pk NTilde h1 h2 c :
  pf = None \/ pk = None \/ NTilde = None \/ h1 = None \/ h2 = None
  \/ c = None ->
  mta.Verify EC O pf pk NTilde h1 h2 c = Ret false.
Proof.
  intros H. unfold mta.Verify.
  destruct H as [-> | [-> | [-> | [-> | [-> | ->]]]]];
    cbn [isnil orb]; rewrite ?orb_true_r; reflexivity.
Qed.

(** C2: [RangeProofAlice.Verify] is given a non-nil proof whose field S1
    is nil, and non-nil public inputs: the call panics (on [pf.S1.Cmp(q3)]
    when it gets that far) instead of returning false. *)
Theorem Verify_panics_on_nil_S1 EC O (z u w s s2 : big.Int)
    (k : paillier.PublicKey) (NTilde h1 h2 c : Z) :
  mta.Verify EC O
    (Some {| mta.Z := z; mta.U := u; mta.W := w; mta.S := s;
             mta.S1 := None; mta.S2 := s2 |})
    (Some k) (Some NTilde) (Some h1) (Some h2) (Some c) = Panic.
Proof.
  unfold mta.Verify.
  cbn [isnil orb deref bind mta.S1].
  destruct (paillier.N k) as [n|]; [|reflexivity].
  destruct EC as [[[q|]]|]; reflexivity.
Qed.

(** C4: with non-nil inputs, [RangeProofAlice.Verify] returns false
    whenever S1 > q³, whatever the two equality checks would give; for
    S1 = q³ the bound check lets the proof through and the result is the
    one of the equality checks. *)
Theorem Verify_rejects_S1_above_q3 EC O (p : mta.RangeProofAlice)
    (k : paillier.PublicKey) (q n s1 : Z) (NTilde h1 h2 c : big.Int) :
  EC = Some {| elliptic.N := Some q |} ->
  paillier.N k = Some n -> mta.S1 p = Some s1 ->
  NTilde <> None -> h1 <> None -> h2 <> None -> c <> None ->
  (q ^ 3 < s1 -> mta.Verify EC O (Some p) (Some k) NTilde h1 h2 c = Ret false)
  /\ (s1 = q ^ 3 ->
      mta.Verify EC O (Some p) (Some k) NTilde h1 h2 c
      = mta.equality_checks O p k (Some q) NTilde h1 h2 c).
Proof.
  intros HEC Hn Hs1 HNT Hh1 Hh2 Hc.
  rewrite (alice_Verify_unfold EC O p k q n s1 NTilde h1 h2 c) by assumption.
  split; intros H.
  - apply Z.ltb_lt in H. now rewrite H.
  - subst s1. now rewrite Z.ltb_irrefl.
Qed.

(** C9: the bound check of [RangeProofAlice.Verify] on S1 is one-sided:
    for every S1 <= q³, and so for every negative S1 when q >= 0, the
    result of [Verify] is the result of the challenge recomputation and
    the two equality checks. *)
Theorem Verify_bound_is_one_sided EC O (p : mta.RangeProofAlice)
    (k : paillier.PublicKey) (q n s1 : Z) (NTilde h1 h2 c : big.Int) :
  EC = Some {| elliptic.N := Some q |} ->
  paillier.N k = Some n -> mta.S1 p = Some s1 ->
  NTilde <> None -> h1 <> None -> h2 <> None -> c <> None ->
  (s1 <= q ^ 3 \/ (0 <= q /\ s1 < 0)) ->
  mta.Verify EC O (Some p) (Some k) NTilde h1 h2 c
  = mta.equality_checks O p k (Some q) NTilde h1 h2 c.
Proof.
  intros HEC Hn Hs1 HNT Hh1 Hh2 Hc Hle.
  rewrite (alice_Verify_unfold EC O p k q n s1 NTilde h1 h2 c) by assumption.
  assert (H : s1 <= q ^ 3).
  { destruct Hle as [H | [Hq Hneg]]; [exact H|].
    pose proof (Z.pow_nonneg q 3 Hq). lia. }
  apply Z.ltb_ge in H. now rewrite H.
Qed.

End AliceVerifyClaims.

(* ===================================================================== *)
(** ** What the constructors return *)
(* ===================================================================== *)

Section ReturnedValues.

Lemma bind_Ret_inv {A B : Type} (c : outcome A) (k : A -> outcome B) (b : B) :
  bind c k = Ret b -> exists a, c = Ret a /\ k a = Ret b.
Proof.
  destruct c as [a|]; cbn; [eauto | discriminate].
Qed.

Lemma Mul_nonnil (x y z : big.Int) : big.Mul x y = Ret z -> isnil z = false.
Proof.
  unfold big.Mul. destruct x, y; cbn; intros [= <-] || discriminate; reflexivity.
Qed.

Lemma Add_nonnil (x y z : big.Int) : big.Add x y = Ret z -> isnil z = false.
Proof.
  unfold big.Add. destruct x, y; cbn; intros [= <-] || discriminate; reflexivity.
Qed.

Lemma Sub_args_nonnil (x y z : big.Int) :
  big.Sub x y = Ret z -> isnil x = false /\ isnil z = false.
Proof.
  unfold big.Sub. destruct x, y; cbn; intros [= <-] || discriminate; auto.
Qed.

Lemma Mod_nonnil (x y z : big.Int) : big.Mod x y = Ret z -> isnil z = false.
Proof.
  unfold big.Mod. destruct x as [a|], y as [m|]; cbn; try discriminate.
  destruct (m =? 0); intros [= <-] || discriminate; reflexivity.
Qed.

Lemma modInt_Mul_nonnil (m x y z : big.Int) :
  common.modInt.Mul m x y = Ret z -> isnil z = false.
Proof.
  unfold common.modInt.Mul. intros H.
  apply bind_Ret_inv in H as (i & _ & H). now apply Mod_nonnil in H.
Qed.

Ltac invert_binds :=
  repeat match goal with
         | H : bind _ _ = Ret _ |- _ =>
             let a := fresh "v" in
             let Ha := fresh "Hv" in
             apply bind_Ret_inv in H as (a & Ha & H)
         end.

Lemma NewProof_returns_complete O rnd ec N0 NCap s t N0p N0q res :
  facproof.NewProof O rnd ec N0 NCap s t N0p N0q = Ret (res, None) ->
  exists pf, res = Some pf /\ facspec.has_nil_field pf = false.
Proof.
  unfold facproof.NewProof.
  destruct (isnil ec || isnil N0 || isnil NCap || isnil s || isnil t
            || isnil N0p || isnil N0q); [discriminate|].
  intros H. invert_binds. injection H as <-.
  eexists; split; [reflexivity|].
  unfold facspec.has_nil_field.
  cbn [facproof.P facproof.Q facproof.A facproof.B facproof.T facproof.Sigma
       facproof.Z1 facproof.Z2 facproof.W1 facproof.W2 facproof.V].
  repeat match goal with
         | H : common.modInt.Mul _ _ _ = Ret ?z |- context [isnil ?z] =>
             rewrite (modInt_Mul_nonnil _ _ _ _ H)
         | H : big.Add _ _ = Ret ?z |- context [isnil ?z] =>
             rewrite (Add_nonnil _ _ _ H)
         | H : big.Sub ?x _ = Ret _ |- context [isnil ?x] =>
             rewrite (proj1 (Sub_args_nonnil _ _ _ H))
         end.
  reflexivity.
Qed.


Lemma ProveRangeAlice_returns_complete EC O rnd pk c NTilde h1 h2 m r res :
  mta.ProveRangeAlice EC O rnd pk c NTilde h1 h2 m r = Ret res ->
  exists p, res = Some p /\ alice_complete p = true.
Proof.
  unfold mta.ProveRangeAlice. intros H. invert_binds. injection H as <-.
  eexists; split; [reflexivity|].
  unfold alice_complete.
  cbn [mta.Z mta.U mta.W mta.S mta.S1 mta.S2].
  repeat match goal with
         | H : common.modInt.Mul _ _ _ = Ret ?z |- context [isnil ?z] =>
             rewrite (modInt_Mul_nonnil _ _ _ _ H)
         | H : big.Add _ _ = Ret ?z |- context [isnil ?z] =>
             rewrite (Add_nonnil _ _ _ H)
         end.
  reflexivity.
Qed.

Lemma NonEmptyMultiBytes_inv (bzs : list (list byte)) :
  common.NonEmptyMultiBytes bzs 11 = true ->
  exists b0 b1 b2 b3 b4 b5 b6 b7 b8 b9 b10,
    bzs = [b0; b1; b2; b3; b4; b5; b6; b7; b8; b9; b10].
Proof.
  unfold common.NonEmptyMultiBytes. intros H.
  apply andb_prop in H as [H _]. apply Nat.eqb_eq in H.
  do 11 (destruct bzs as [|? bzs]; [discriminate|]).
  destruct bzs; [|discriminate].
  repeat eexists.
Qed.

Lemma NonEmptyMultiBytes_spec (bzs : list (list byte)) (n : nat) :
  common.NonEmptyMultiBytes bzs n = true
  <-> List.length bzs = n /\ ~ In [] bzs.
Proof.
  unfold common.NonEmptyMultiBytes.
  rewrite andb_true_iff, Nat.eqb_eq, forallb_forall.
  split; intros [Hlen Hne]; split; try assumption.
  - intros Hin. specialize (Hne [] Hin). discriminate.
  - intros [|b bz] Hin; [contradiction | reflexivity].
Qed.

Lemma NewProofFromBytes_ok (bzs : list (list byte)) :
  common.NonEmptyMultiBytes bzs 11 = true ->
  facproof.NewProofFromBytes bzs = Ret (Some (decode bzs), None).
Proof.
  intros H. unfold facproof.NewProofFromBytes, facproof.ProofFacBytesParts.
  rewrite H. cbn [negb].
  destruct (NonEmptyMultiBytes_inv bzs H)
    as (b0 & b1 & b2 & b3 & b4 & b5 & b6 & b7 & b8 & b9 & b10 & ->).
  unfold decode, big.SetBytes. cbn [index nth_error deref bind nth].
  rewrite !SetBytesZ_big_endian. reflexivity.
Qed.

Lemma NewProofFromBytes_err (bzs : list (list byte)) :
  common.NonEmptyMultiBytes bzs 11 = false ->
  facproof.NewProofFromBytes bzs
  = Ret (None, Some "expected 11 byte parts to construct ProofFac"%string).
Proof.
  intros H. unfold facproof.NewProofFromBytes, facproof.ProofFacBytesParts.
  now rewrite H.
Qed.

(** C7: [NewProofFromBytes] returns the format error and no proof when
    the number of parts is not 11 or some part is empty; otherwise it
    returns, without any other check, the proof whose fields are the parts
    read as big-endian unsigned integers in the order P, Q, A, B, T, Sigma,
    Z1, Z2, W1, W2, V. *)
Theorem NewProofFromBytes_format (bzs : list (list byte)) :
  (List.length bzs <> 11%nat \/ In [] bzs ->
   facproof.NewProofFromBytes bzs
   = Ret (None, Some "expected 11 byte parts to construct ProofFac"%string))
  /\ (List.length bzs = 11%nat -> ~ In [] bzs ->
      facproof.NewProofFromBytes bzs = Ret (Some (decode bzs), None)).
Proof.
  split.
  - intros H. apply NewProofFromBytes_err.
    destruct (common.NonEmptyMultiBytes bzs 11) eqn:E; [|reflexivity].
    apply NonEmptyMultiBytes_spec in E as [Hlen Hne]. tauto.
  - intros Hlen Hne. apply NewProofFromBytes_ok.
    apply NonEmptyMultiBytes_spec. tauto.
Qed.

Lemma NewProofFromBytes_returns_complete bzs res :
  facproof.NewProofFromBytes bzs = Ret (res, None) ->
  exists pf, res = Some pf /\ facspec.has_nil_field pf = false.
Proof.
  destruct (common.NonEmptyMultiBytes bzs 11) eqn:E.
  - rewrite (NewProofFromBytes_ok bzs E). intros [= <-].
    eexists; split; reflexivity.
  - rewrite (NewProofFromBytes_err bzs E). discriminate.
Qed.

End ReturnedValues.

(* ===================================================================== *)
(** ** facproof: the value of [NewProof] and completeness *)
(* ===================================================================== *)

Section ProverValue.
Import facproof.

Lemma Exp_nonneg (a b n : Z) :
  0 <= b -> n <> 0 ->
  big.Exp (Some a) (Some b) (Some n) = Ret (Some (a ^ b mod Z.abs n)).
Proof.
  intros Hb Hn. unfold big.Exp. cbn [deref bind].
  replace (b <? 0) with false by (symmetry; apply Z.ltb_ge; lia).
  replace (Z.abs n =? 0) with false by (symmetry; apply Z.eqb_neq; lia).
  rewrite Zpow_mod_correct by lia. reflexivity.
Qed.

Lemma modInt_Exp_nonneg (a b n : Z) :
  0 <= b -> n <> 0 ->
  common.modInt.Exp (common.ModInt (Some n)) (Some a) (Some b)
  = Ret (Some (a ^ b mod Z.abs n)).
Proof. apply Exp_nonneg. Qed.

Lemma modInt_Mul_value (a b n : Z) :
  n <> 0 ->
  common.modInt.Mul (Some n) (Some a) (Some b)
  = Ret (Some (a * b mod Z.abs n)).
Proof.
  intros Hn. unfold common.modInt.Mul, big.Mul, big.Mod. cbn [deref bind].
  replace (n =? 0) with false by (symmetry; apply Z.eqb_neq; lia).
  reflexivity.
Qed.

Lemma NewProof_value O (q n0 nc s t p p' a b mu nu sg r x y e : Z) :
  0 <= n0 -> nc <> 0 -> 0 <= p -> 0 <= p' ->
  0 <= a -> 0 <= b -> 0 <= mu -> 0 <= nu -> 0 <= r -> 0 <= x -> 0 <= y ->
  let m := Z.abs nc in
  let vP := commit m s t p mu in
  let vQ := commit m s t p' nu in
  let vA := commit m s t a x in
  let vB := commit m s t b y in
  let vT := commit m vQ t a r in
  common.RejectionSample O (Some q)
    (common.SHA512_256i O
       [Some n0; Some nc; Some s; Some t; Some vP; Some vQ; Some vA;
        Some vB; Some vT; Some sg]) = Some e ->
  NewProof O
    {| alpha := Some a; beta := Some b; mu := Some mu; nu := Some nu;
       sigma := Some sg; r := Some r; x := Some x; y := Some y |}
    (Some {| elliptic.N := Some q |}) (Some n0) (Some nc) (Some s) (Some t)
    (Some p) (Some p')
  = Ret (Some {| P := Some vP; Q := Some vQ; A := Some vA; B := Some vB;
                 T := Some vT; Sigma := Some sg;
                 Z1 := Some (e * p + a); Z2 := Some (e * p' + b);
                 W1 := Some (e * mu + x); W2 := Some (e * nu + y);
                 V := Some (e * (sg - nu * p) + r) |},
         None).
Proof.
  intros Hn0 Hnc Hp Hp' Ha Hb Hmu Hnu Hr Hx Hy m vP vQ vA vB vT He.
  subst m vP vQ vA vB vT. unfold commit in *.
  unfold NewProof, common.GetRandomPositiveInt,
    common.GetRandomPositiveRelativelyPrimeInt.
  cbn [isnil orb deref bind elliptic.Params elliptic.N big.Sqrt big.Mul
       rangeParameter alpha beta facproof.mu facproof.nu sigma facproof.r
       facproof.x facproof.y].
  replace (n0 <? 0) with false by (symmetry; apply Z.ltb_ge; lia).
  cbn [bind deref].
  repeat (first [ rewrite modInt_Exp_nonneg by assumption
                | unfold common.ModInt at 1;
                  rewrite modInt_Mul_value by assumption ];
          cbn [bind]).
  match goal with
  | |- context [common.RejectionSample O ?u ?h] =>
      replace (common.RejectionSample O u h) with (Some e)
        by (symmetry; exact He)
  end.
  cbn [big.Mul big.Add big.Sub deref bind].
  reflexivity.
Qed.

End ProverValue.

Section Arithmetic.
Variable m : Z.
Hypothesis Hm : 0 < m.

Lemma commit_eq (s t a b : Z) : commit m s t a b = (s ^ a * t ^ b) mod m.
Proof. unfold commit. now rewrite <- Z.mul_mod by lia. Qed.

Lemma commit_base_mod (X t a b : Z) :
  commit m (X mod m) t a b = commit m X t a b.
Proof. unfold commit. now rewrite Z.mod_pow_l. Qed.

Lemma commit_range (s t a b : Z) : 0 <= commit m s t a b < m.
Proof. unfold commit. apply Z.mod_pos_bound. lia. Qed.

Lemma commit_coprime (s t a b : Z) :
  0 <= a -> 0 <= b -> Z.gcd s m = 1 -> Z.gcd t m = 1 ->
  Z.gcd (commit m s t a b) m = 1.
Proof.
  intros Ha Hb Hs Ht. rewrite commit_eq.
  apply Z.coprime_mod_l_iff.
  apply Z.coprime_mul_l; apply Z.coprime_pow_l; assumption.
Qed.

Lemma mul_pow_mod (X Y e : Z) :
  (X mod m * ((Y mod m) ^ e mod m)) mod m = (X * Y ^ e) mod m.
Proof.
  rewrite Z.mod_pow_l. now rewrite <- Z.mul_mod by lia.
Qed.

(** s^(e·p+a) · t^(e·u+x) = s^a·t^x · (s^p·t^u)^e *)
Lemma response_equation (s t e p a u x : Z) :
  0 <= e -> 0 <= p -> 0 <= a -> 0 <= u -> 0 <= x ->
  commit m s t (e * p + a) (e * u + x)
  = (commit m s t a x * (commit m s t p u ^ e mod m)) mod m.
Proof.
  intros He Hp Ha Hu Hx.
  rewrite !commit_eq, mul_pow_mod. f_equal.
  rewrite !Z.pow_add_r by nia.
  rewrite (Z.mul_comm e p), (Z.mul_comm e u).
  rewrite !Z.pow_mul_r by lia.
  rewrite Z.pow_mul_l. ring.
Qed.

(** Q^(e·p+a) · t^(e·(sg - nu·p) + r) = Q^a·t^r · (s^(p·p')·t^sg)^e for
    Q = s^p'·t^nu *)
Lemma product_equation (s t e p p' a nu sg r : Z) :
  0 <= e -> 0 <= p -> 0 <= p' -> 0 <= a -> 0 <= nu -> 0 <= sg -> 0 <= r ->
  0 <= e * (sg - nu * p) + r ->
  let Q := commit m s t p' nu in
  commit m Q t (e * p + a) (e * (sg - nu * p) + r)
  = (commit m Q t a r * (commit m s t (p * p') sg ^ e mod m)) mod m.
Proof.
  intros He Hp Hp' Ha Hnu Hsg Hr Hv Q. subst Q.
  rewrite (commit_eq s t p' nu), !commit_base_mod.
  rewrite !commit_eq, mul_pow_mod. f_equal.
  set (X := s ^ p' * t ^ nu).
  rewrite Z.pow_add_r by nia.
  replace (X ^ (e * p)) with (s ^ (p * p' * e) * t ^ (nu * p * e)).
  2:{ unfold X. rewrite Z.pow_mul_l.
      rewrite <- !Z.pow_mul_r by nia.
      f_equal; f_equal; ring. }
  rewrite Z.pow_mul_l. rewrite <- !Z.pow_mul_r by nia.
  transitivity (X ^ a * s ^ (p * p' * e)
                * (t ^ (nu * p * e) * t ^ (e * (sg - nu * p) + r))); [ring|].
  rewrite <- Z.pow_add_r by nia.
  replace (nu * p * e + (e * (sg - nu * p) + r)) with (r + sg * e) by ring.
  rewrite Z.pow_add_r by nia. ring.
Qed.

End Arithmetic.

Section HonestRun.
Import facproof.

Lemma Exp_pos (a b n : Z) :
  0 <= b -> 0 < n ->
  big.Exp (Some a) (Some b) (Some n) = Ret (Some (a ^ b mod n)).
Proof.
  intros Hb Hn. rewrite Exp_nonneg by lia. now rewrite Z.abs_eq by lia.
Qed.

Lemma modInt_Mul_pos (a b n : Z) :
  0 < n ->
  common.modInt.Mul (Some n) (Some a) (Some b) = Ret (Some (a * b mod n)).
Proof.
  intros Hn. rewrite modInt_Mul_value by lia. now rewrite Z.abs_eq by lia.
Qed.

Lemma cmp_is_zero_value (a b : Z) :
  cmp_is_zero (Some a) (Some b) = Ret (a =? b).
Proof.
  unfold cmp_is_zero, big.Cmp. cbn [deref bind]. now rewrite cmp_zero_eqb.
Qed.

Lemma drawn_below_inv (v : big.Int) (bound : Z) :
  common.drawn_below v bound = true -> exists a, v = Some a /\ 0 <= a < bound.
Proof.
  destruct v as [a|]; cbn; [|discriminate].
  intros H. apply andb_prop in H as [H1 H2].
  apply Z.leb_le in H1. apply Z.ltb_lt in H2. eauto.
Qed.

Lemma drawn_coprime_below_inv (v : big.Int) (bound : Z) :
  common.drawn_coprime_below v bound = true ->
  exists a, v = Some a /\ 0 <= a < bound.
Proof.
  destruct v as [a|]; cbn; [|discriminate].
  intros H. apply andb_prop in H as [H _]. apply andb_prop in H as [H1 H2].
  apply Z.leb_le in H1. apply Z.ltb_lt in H2. eauto.
Qed.

Lemma honest_draws_inv (rnd : Draws) (q n0 nc : Z) :
  facspec.honest_draws rnd q n0 nc = true ->
  exists a b u v sg r x y,
    rnd = {| alpha := Some a; beta := Some b; mu := Some u; nu := Some v;
             sigma := Some sg; r := Some r; x := Some x; y := Some y |}
    /\ 0 <= a < facspec.l * q * Z.sqrt n0
    /\ 0 <= b < facspec.l * q * Z.sqrt n0
    /\ 0 <= u < facspec.l * nc /\ 0 <= v < facspec.l * nc
    /\ 0 <= sg < facspec.l * nc * n0
    /\ 0 <= r < facspec.l * nc * n0 * q
    /\ 0 <= x < facspec.l * nc * q /\ 0 <= y < facspec.l * nc * q.
Proof.
  destruct rnd as [fa fb fu fv fsg fr fx fy].
  unfold facspec.honest_draws.
  cbn [alpha beta mu nu sigma r x y].
  rewrite !andb_true_iff.
  intros [[[[[[[Ha Hb] Hu] Hv] Hsg] Hr] Hx] Hy].
  apply drawn_below_inv in Ha as (a & -> & Ha).
  apply drawn_below_inv in Hb as (b & -> & Hb).
  apply drawn_below_inv in Hu as (u & -> & Hu).
  apply drawn_below_inv in Hv as (v & -> & Hv).
  apply drawn_below_inv in Hsg as (sg & -> & Hsg).
  apply drawn_coprime_below_inv in Hr as (r & -> & Hr).
  apply drawn_below_inv in Hx as (x & -> & Hx).
  apply drawn_below_inv in Hy as (y & -> & Hy).
  exists a, b, u, v, sg, r, x, y. repeat split; lia.
Qed.

Lemma in_interval_true (v bound : Z) :
  facspec.in_interval (Some v) bound = true <-> 0 <= v < bound.
Proof.
  unfold facspec.in_interval. rewrite andb_true_iff, Z.leb_le, Z.ltb_lt.
  tauto.
Qed.

Lemma challenge_inv (O : common.Oracle) (q : Z) (h : big.Int) :
  common.challenges_in_range O q ->
  exists e, common.RejectionSample O (Some q) h = Some e /\ 0 <= e < q.
Proof.
  intros HO. specialize (HO h). unfold common.challenge_in_range in HO.
  destruct (common.RejectionSample O (Some q) h) as [e|]; [|discriminate].
  apply andb_prop in HO as [H1 H2].
  apply Z.leb_le in H1. apply Z.ltb_lt in H2. eauto.
Qed.

End HonestRun.

Section HonestEqualities.
Import facproof.

Lemma equality_checks_honest O (q n0 nc s t p p' a b u v sg r x y e : Z) :
  0 < nc -> 0 < p -> 0 < p' -> n0 = p * p' ->
  0 <= a -> 0 <= b -> 0 <= u -> 0 <= v -> 0 <= sg -> 0 <= r -> 0 <= x ->
  0 <= y -> 0 <= e -> 0 <= e * (sg - v * p) + r ->
  let pf := honest_proof nc s t p p' a b u v sg r x y e in
  common.RejectionSample O (Some q)
    (common.SHA512_256i O
       [Some n0; Some nc; Some s; Some t; P pf; Q pf; A pf; B pf; T pf;
        Sigma pf]) = Some e ->
  equality_checks O pf (Some q) (Some n0) (Some nc) (Some s) (Some t)
  = Ret true.
Proof.
  intros Hnc Hp Hp' Hn0 Ha Hb Hu Hv Hsg Hr Hx Hy He HV pf Hch.
  unfold equality_checks.
  match goal with
  | |- context [common.RejectionSample O ?c ?h] =>
      replace (common.RejectionSample O c h) with (Some e)
        by (symmetry; exact Hch)
  end.
  subst pf. unfold honest_proof.
  cbn [P Q A B T Sigma Z1 Z2 W1 W2 V].
  pose proof (response_equation nc Hnc s t e p a u x He ltac:(lia) Ha Hu Hx)
    as E1.
  pose proof (response_equation nc Hnc s t e p' b v y He ltac:(lia) Hb Hv Hy)
    as E2.
  pose proof (product_equation nc Hnc s t e p p' a v sg r He ltac:(lia)
                ltac:(lia) Ha Hv Hsg Hr HV) as E3.
  cbv zeta in E3.
  repeat (first [ rewrite Exp_pos by nia
                | rewrite modInt_Mul_pos by lia
                | rewrite cmp_is_zero_value ];
          cbn [bind]).
  fold (commit nc s t (e * p + a) (e * u + x)).
  fold (commit nc s t (e * p' + b) (e * v + y)).
  fold (commit nc s t n0 sg).
  fold (commit nc (commit nc s t p' v) t (e * p + a) (e * (sg - v * p) + r)).
  fold (commit nc s t p u). fold (commit nc s t a x).
  fold (commit nc s t p' v). fold (commit nc s t b y).
  fold (commit nc (commit nc s t p' v) t a r).
  rewrite E1, E2, Hn0, E3.
  rewrite !Z.eqb_refl. reflexivity.
Qed.

End HonestEqualities.

Section CompletenessTheorem.
Import facproof.

Lemma NewProof_honest_value O (q n0 nc s t p p' a b u v sg r x y e : Z) :
  0 <= n0 -> 0 < nc -> 0 <= p -> 0 <= p' ->
  0 <= a -> 0 <= b -> 0 <= u -> 0 <= v -> 0 <= r -> 0 <= x -> 0 <= y ->
  let pf := honest_proof nc s t p p' a b u v sg r x y e in
  common.RejectionSample O (Some q)
    (common.SHA512_256i O
       [Some n0; Some nc; Some s; Some t; P pf; Q pf; A pf; B pf; T pf;
        Sigma pf]) = Some e ->
  NewProof O
    {| alpha := Some a; beta := Some b; mu := Some u; nu := Some v;
       sigma := Some sg; r := Some r; x := Some x; y := Some y |}
    (Some {| elliptic.N := Some q |}) (Some n0) (Some nc) (Some s) (Some t)
    (Some p) (Some p')
  = Ret (Some pf, None).
Proof.
  intros Hn0 Hnc Hp Hp' Ha Hb Hu Hv Hr Hx Hy pf Hch.
  subst pf. unfold honest_proof in *. cbn [P Q A B T Sigma] in Hch.
  pose proof (NewProof_value O q n0 nc s t p p' a b u v sg r x y e
                Hn0 ltac:(lia) Hp Hp' Ha Hb Hu Hv Hr Hx Hy) as H.
  cbv zeta in H. rewrite (Z.abs_eq nc) in H by lia.
  exact (H Hch).
Qed.

(** The verdict of [Verify] on the proof of an honest run, in terms of the
    draws and the challenge: the commitments pass their interval and gcd
    checks, the three congruences hold, and what is left is the interval of
    Z1 and Z2 and the sign of V. *)
Lemma honest_Verify_value O (q n0 nc s t p p' a b u v sg r x y e : Z) :
  n0 = p * p' -> 0 < p -> 0 < p' -> 0 < nc ->
  Z.gcd s nc = 1 -> Z.gcd t nc = 1 ->
  0 <= a < facspec.l * q * Z.sqrt n0 ->
  0 <= b < facspec.l * q * Z.sqrt n0 ->
  0 <= u < facspec.l * nc -> 0 <= v < facspec.l * nc ->
  0 <= sg < facspec.l * nc * n0 ->
  0 <= r < facspec.l * nc * n0 * q ->
  0 <= x < facspec.l * nc * q -> 0 <= y < facspec.l * nc * q ->
  0 <= e < q ->
  let pf := honest_proof nc s t p p' a b u v sg r x y e in
  common.RejectionSample O (Some q)
    (common.SHA512_256i O
       [Some n0; Some nc; Some s; Some t; P pf; Q pf; A pf; B pf; T pf;
        Sigma pf]) = Some e ->
  Verify O (Some pf) (Some {| elliptic.N := Some q |}) (Some n0) (Some nc)
         (Some s) (Some t)
  = Ret ((e * p + a <? facspec.l * q * Z.sqrt n0)
         && (e * p' + b <? facspec.l * q * Z.sqrt n0)
         && (0 <=? e * (sg - v * p) + r)).
Proof.
  intros Hn0 Hp Hp' Hnc Hs Ht Ha Hb Hu Hv Hsg Hr Hx Hy He pf Hch.
  assert (Hl : facspec.l = 32768) by reflexivity.
  assert (Hn0pos : 0 < n0) by nia.
  pose proof (Z.sqrt_nonneg n0) as Hsq.
  assert (Hq : 0 < q) by lia.
  subst pf.
  rewrite Verify_unfold by (reflexivity || lia).
  assert (HCC : facspec.coprimality_checks
                  (honest_proof nc s t p p' a b u v sg r x y e) nc = true).
  { unfold facspec.coprimality_checks, honest_proof, facspec.coprime_to.
    cbn [P Q A B T].
    assert (HQ : Z.gcd (commit nc s t p' v) nc = 1)
      by (apply commit_coprime; lia).
    rewrite !andb_true_iff, !Z.eqb_eq.
    repeat split; apply commit_coprime; lia || assumption. }
  rewrite HCC, andb_true_r.
  pose proof (commit_range nc Hnc s t p u) as RP.
  pose proof (commit_range nc Hnc s t p' v) as RQ.
  pose proof (commit_range nc Hnc s t a x) as RA.
  pose proof (commit_range nc Hnc s t b y) as RB.
  pose proof (commit_range nc Hnc (commit nc s t p' v) t a r) as RT.
  destruct (Z.ltb_spec (e * p + a) (facspec.l * q * Z.sqrt n0)) as [HZ1|HZ1];
    [destruct (Z.ltb_spec (e * p' + b) (facspec.l * q * Z.sqrt n0))
       as [HZ2|HZ2];
     [destruct (Z.leb_spec 0 (e * (sg - v * p) + r)) as [HV|HV]|]|];
    cbn [andb].
  - replace (facspec.interval_checks _ q n0 nc) with true.
    + apply (equality_checks_honest O q n0 nc s t p p' a b u v sg r x y e);
        try lia. exact Hch.
    + symmetry. unfold facspec.interval_checks, honest_proof.
      cbn [P Q A B T Sigma Z1 Z2 W1 W2 V].
      rewrite !andb_true_iff, !in_interval_true.
      rewrite Hl in *. repeat split; try lia; try nia.
  - replace (facspec.interval_checks _ q n0 nc) with false; [reflexivity|].
    symmetry. unfold facspec.interval_checks, honest_proof.
    cbn [P Q A B T Sigma Z1 Z2 W1 W2 V].
    replace (facspec.in_interval (Some (e * (sg - v * p) + r)) _) with false.
    + now rewrite !andb_false_r.
    + symmetry. unfold facspec.in_interval.
      replace (0 <=? e * (sg - v * p) + r) with false
        by (symmetry; apply Z.leb_gt; lia).
      reflexivity.
  - replace (facspec.interval_checks _ q n0 nc) with false; [reflexivity|].
    symmetry. unfold facspec.interval_checks, honest_proof.
    cbn [P Q A B T Sigma Z1 Z2 W1 W2 V].
    replace (facspec.in_interval (Some (e * p' + b)) _) with false.
    + now rewrite !andb_false_r.
    + symmetry. unfold facspec.in_interval.
      replace (e * p' + b <? facspec.l * q * Z.sqrt n0) with false
        by (symmetry; apply Z.ltb_ge; lia).
      now rewrite andb_false_r.
  - replace (facspec.interval_checks _ q n0 nc) with false; [reflexivity|].
    symmetry. unfold facspec.interval_checks, honest_proof.
    cbn [P Q A B T Sigma Z1 Z2 W1 W2 V].
    replace (facspec.in_interval (Some (e * p + a)) _) with false.
    + now rewrite !andb_false_r.
    + symmetry. unfold facspec.in_interval.
      replace (e * p + a <? facspec.l * q * Z.sqrt n0) with false
        by (symmetry; apply Z.ltb_ge; lia).
      now rewrite andb_false_r.
Qed.

(** C1, as amended: for N0 = N0p·N0q with positive factors, a positive
    NCap, bases s and t coprime to NCap, challenges in [0, q) and an honest
    run of the sampling with the draws alpha, beta, nu, sigma and r,
    [NewProof] returns a proof whose responses are Z1 = e·N0p + alpha,
    Z2 = e·N0q + beta and V = e·(sigma - nu·N0p) + r for the challenge e of
    its commitments, and [Verify] accepts that proof exactly when these
    responses are in the verifier's intervals: Z1 and Z2 below l·q·√N0 and
    V not negative.  In particular every run with
    alpha + (q-1)·N0p < l·q·√N0, beta + (q-1)·N0q < l·q·√N0 and
    nu·N0p <= sigma is accepted. *)
Theorem honest_proof_verifies_iff_responses_in_range
    O (q n0 nc s t p p' : Z) (rnd : Draws) :
  common.challenges_in_range O q ->
  n0 = p * p' -> 0 < p -> 0 < p' -> 0 < nc ->
  Z.gcd s nc = 1 -> Z.gcd t nc = 1 ->
  facspec.honest_draws rnd q n0 nc = true ->
  let ec := Some {| elliptic.N := Some q |} in
  let bound := facspec.l * q * Z.sqrt n0 in
  exists pf e a b v sg r,
    alpha rnd = Some a /\ beta rnd = Some b /\ nu rnd = Some v
    /\ sigma rnd = Some sg /\ facproof.r rnd = Some r
    /\ NewProof O rnd ec (Some n0) (Some nc) (Some s) (Some t) (Some p)
                (Some p')
       = Ret (Some pf, None)
    /\ common.RejectionSample O (Some q)
         (common.SHA512_256i O
            [Some n0; Some nc; Some s; Some t; P pf; Q pf; A pf; B pf; T pf;
             Sigma pf]) = Some e
    /\ 0 <= e < q
    /\ Z1 pf = Some (e * p + a) /\ Z2 pf = Some (e * p' + b)
    /\ V pf = Some (e * (sg - v * p) + r)
    /\ Verify O (Some pf) ec (Some n0) (Some nc) (Some s) (Some t)
       = Ret ((e * p + a <? bound) && (e * p' + b <? bound)
              && (0 <=? e * (sg - v * p) + r))
    /\ (Verify O (Some pf) ec (Some n0) (Some nc) (Some s) (Some t) = Ret true
        <-> facspec.responses_in_range pf q n0 = true)
    /\ (a + (q - 1) * p < bound -> b + (q - 1) * p' < bound -> v * p <= sg ->
        Verify O (Some pf) ec (Some n0) (Some nc) (Some s) (Some t)
        = Ret true).
Proof.
  intros HO Hn0 Hp Hp' Hnc Hs Ht Hd ec bound. subst ec bound.
  destruct (honest_draws_inv rnd q n0 nc Hd)
    as (a & b & u & v & sg & r & x & y & -> & Ha & Hb & Hu & Hv & Hsg & Hr
        & Hx & Hy).
  set (vQ := commit nc s t p' v).
  destruct (challenge_inv O q
              (common.SHA512_256i O
                 [Some n0; Some nc; Some s; Some t;
                  Some (commit nc s t p u); Some vQ;
                  Some (commit nc s t a x); Some (commit nc s t b y);
                  Some (commit nc vQ t a r); Some sg]) HO)
    as (e & Hch & He).
  pose proof (honest_Verify_value O q n0 nc s t p p' a b u v sg r x y e
                Hn0 Hp Hp' Hnc Hs Ht Ha Hb Hu Hv Hsg Hr Hx Hy He Hch) as HV.
  cbv zeta in HV.
  exists (honest_proof nc s t p p' a b u v sg r x y e), e, a, b, v, sg, r.
  cbn [alpha beta nu sigma facproof.r].
  do 5 (split; [reflexivity|]).
  split.
  { apply NewProof_honest_value; try lia; try nia. exact Hch. }
  split; [exact Hch|]. split; [exact He|].
  do 3 (split; [reflexivity|]).
  split; [exact HV|].
  rewrite HV. split.
  - unfold facspec.responses_in_range, honest_proof, facspec.in_interval.
    cbn [Z1 Z2 V].
    replace (0 <=? e * p + a) with true by (symmetry; apply Z.leb_le; nia).
    replace (0 <=? e * p' + b) with true by (symmetry; apply Z.leb_le; nia).
    cbn [andb].
    split; intros H; [injection H as H; exact H | now rewrite H].
  - intros H1 H2 H3.
    replace (e * p + a <? facspec.l * q * Z.sqrt n0) with true
      by (symmetry; apply Z.ltb_lt; nia).
    replace (e * p' + b <? facspec.l * q * Z.sqrt n0) with true
      by (symmetry; apply Z.ltb_lt; nia).
    replace (0 <=? e * (sg - v * p) + r) with true
      by (symmetry; apply Z.leb_le; nia).
    reflexivity.
Qed.

(** Completeness fails at every size of the factors: an honest run whose
    alpha is the last integer of its interval is rejected as soon as the
    challenge is not zero, since Z1 = e·N0p + alpha leaves [0, l·q·√N0). *)
Lemma honest_run_with_alpha_at_top_is_rejected
    O (q n0 nc s t p p' : Z) (rnd : Draws) :
  common.challenges_in_range O q ->
  (forall h, common.RejectionSample O (Some q) h <> Some 0) ->
  n0 = p * p' -> 0 < p -> 0 < p' -> 0 < nc ->
  Z.gcd s nc = 1 -> Z.gcd t nc = 1 ->
  facspec.honest_draws rnd q n0 nc = true ->
  alpha rnd = Some (facspec.l * q * Z.sqrt n0 - 1) ->
  let ec := Some {| elliptic.N := Some q |} in
  exists pf,
    NewProof O rnd ec (Some n0) (Some nc) (Some s) (Some t) (Some p) (Some p')
    = Ret (Some pf, None)
    /\ Verify O (Some pf) ec (Some n0) (Some nc) (Some s) (Some t)
       = Ret false.
Proof.
  intros HO HO' Hn0 Hp Hp' Hnc Hs Ht Hd Htop ec. subst ec.
  destruct (honest_draws_inv rnd q n0 nc Hd)
    as (a & b & u & v & sg & r & x & y & -> & Ha & Hb & Hu & Hv & Hsg & Hr
        & Hx & Hy).
  cbn [alpha] in Htop.
  assert (Ha' : a = facspec.l * q * Z.sqrt n0 - 1) by congruence.
  set (vQ := commit nc s t p' v).
  destruct (challenge_inv O q
              (common.SHA512_256i O
                 [Some n0; Some nc; Some s; Some t;
                  Some (commit nc s t p u); Some vQ;
                  Some (commit nc s t a x); Some (commit nc s t b y);
                  Some (commit nc vQ t a r); Some sg]) HO)
    as (e & Hch & He).
  assert (He1 : 1 <= e).
  { destruct (Z.eq_dec e 0) as [->|]; [|lia].
    exfalso. eapply HO'. exact Hch. }
  exists (honest_proof nc s t p p' a b u v sg r x y e).
  split.
  - apply NewProof_honest_value; try lia; try nia. exact Hch.
  - rewrite (honest_Verify_value O q n0 nc s t p p' a b u v sg r x y e)
      by (assumption || exact Hch).
    assert (Hep : 1 <= e * p) by nia.
    replace (e * p + a <? facspec.l * q * Z.sqrt n0) with false
      by (symmetry; apply Z.ltb_ge; lia).
    reflexivity.
Qed.

End CompletenessTheorem.

(* ===================================================================== *)
(** ** facproof: construction without checks, and the wire round trip *)
(* ===================================================================== *)

Section ConstructionAndWire.
Import facproof.

Lemma nonneg_inv v : nonneg v = true -> exists a, v = Some a /\ 0 <= a.
Proof.
  destruct v as [a|]; cbn; [|discriminate].
  intros H%Z.leb_le. eauto.
Qed.





Lemma positive_field_inv v :
  positive_field v = true -> exists a, v = Some a /\ 0 < a.
Proof.
  destruct v as [a|]; cbn; [|discriminate].
  intros H%Z.ltb_lt. eauto.
Qed.

Lemma decode_BytesZ (a : Z) : 0 < a -> big_endian (big.BytesZ a) = a.
Proof.
  intros Ha. rewrite <- SetBytesZ_big_endian, SetBytesZ_BytesZ. lia.
Qed.

Lemma nonempty_length (bz : list byte) :
  bz <> [] -> negb (List.length bz =? 0)%nat = true.
Proof. destruct bz; [contradiction | reflexivity]. Qed.

(** C6, as amended: for a proof whose eleven fields are strictly positive,
    [Bytes()] gives the eleven minimal big-endian encodings in the order
    P, Q, A, B, T, Sigma, Z1, Z2, W1, W2, V, [NewProofFromBytes] on them
    succeeds and rebuilds the same fields, and [Bytes()] on the rebuilt
    proof gives the same arrays. *)
Theorem Bytes_roundtrip_of_positive_fields (pf : ProofFac) :
  all_positive pf = true ->
  exists bzs pf',
    Bytes (Some pf) = Ret bzs
    /\ bzs = map field_bytes (fields pf)
    /\ NewProofFromBytes bzs = Ret (Some pf', None)
    /\ pf' = pf
    /\ Bytes (Some pf') = Ret bzs.
Proof.
  destruct pf as [fP fQ fA fB fT fS fZ1 fZ2 fW1 fW2 fV].
  unfold all_positive, fields.
  cbn [P Q A B T Sigma Z1 Z2 W1 W2 V forallb].
  rewrite !andb_true_iff.
  intros (HP & HQ & HA & HB & HT & HS & HZ1 & HZ2 & HW1 & HW2 & HV & _).
  apply positive_field_inv in HP as (vP & -> & HP).
  apply positive_field_inv in HQ as (vQ & -> & HQ).
  apply positive_field_inv in HA as (vA & -> & HA).
  apply positive_field_inv in HB as (vB & -> & HB).
  apply positive_field_inv in HT as (vT & -> & HT).
  apply positive_field_inv in HS as (vS & -> & HS).
  apply positive_field_inv in HZ1 as (vZ1 & -> & HZ1).
  apply positive_field_inv in HZ2 as (vZ2 & -> & HZ2).
  apply positive_field_inv in HW1 as (vW1 & -> & HW1).
  apply positive_field_inv in HW2 as (vW2 & -> & HW2).
  apply positive_field_inv in HV as (vV & -> & HV).
  eexists. eexists.
  split; [reflexivity|]. split; [reflexivity|].
  assert (Hdec : NewProofFromBytes
            [big.BytesZ vP; big.BytesZ vQ; big.BytesZ vA; big.BytesZ vB;
             big.BytesZ vT; big.BytesZ vS; big.BytesZ vZ1; big.BytesZ vZ2;
             big.BytesZ vW1; big.BytesZ vW2; big.BytesZ vV]
          = Ret (Some {| P := Some vP; Q := Some vQ; A := Some vA;
                         B := Some vB; T := Some vT; Sigma := Some vS;
                         Z1 := Some vZ1; Z2 := Some vZ2; W1 := Some vW1;
                         W2 := Some vW2; V := Some vV |}, None)).
  { rewrite NewProofFromBytes_ok.
    - unfold decode. cbn [nth]. rewrite !decode_BytesZ by assumption.
      reflexivity.
    - unfold common.NonEmptyMultiBytes. cbn [List.length forallb Nat.eqb andb].
      rewrite !nonempty_length by (apply BytesZ_nonempty; lia).
      reflexivity. }
  split; [exact Hdec|]. split; reflexivity.
Qed.

End ConstructionAndWire.

(* ===================================================================== *)
(** ** mta: [ProveRangeAlice] returns *)
(* ===================================================================== *)

Section AliceProver.

Lemma ProveRangeAlice_returns EC O (rnd : mta.Draws) (k : paillier.PublicKey)
    (c : big.Int) (q n g nt v1 v2 mv rv : Z) :
  EC = Some {| elliptic.N := Some q |} ->
  paillier.N k = Some n -> paillier.Gamma k = Some g ->
  0 < n -> nt <> 0 -> 0 <= mv ->
  mtaspec.nonneg_draws rnd = true ->
  common.challenges_in_range O q ->
  exists p,
    mta.ProveRangeAlice EC O rnd (Some k) c (Some nt) (Some v1) (Some v2)
                        (Some mv) (Some rv)
    = Ret (Some p).
Proof.
  intros -> Hn Hg Hnpos Hnt Hm Hd HO.
  destruct rnd as [fa fb fg fr].
  unfold mtaspec.nonneg_draws in Hd.
  cbn [mta.alpha mta.beta mta.gamma mta.rho] in Hd.
  rewrite !andb_true_iff in Hd. destruct Hd as [[[Ha Hb] Hga] Hrho].
  apply nonneg_inv in Ha as (a & -> & Ha).
  apply nonneg_inv in Hga as (ga & -> & Hga).
  apply nonneg_inv in Hrho as (rho & -> & Hrho).
  destruct fb as [b|]; [|discriminate].
  unfold mta.ProveRangeAlice, paillier.NSquare, paillier.AsInts,
    random.GetRandomPositiveInt, random.GetRandomPositiveRelativelyPrimeInt,
    common.GetRandomPositiveInt, common.GetRandomPositiveRelativelyPrimeInt.
  cbn [elliptic.Params elliptic.N deref bind big.Mul mta.alpha mta.beta
       mta.gamma mta.rho].
  rewrite Hn, Hg. cbn [deref bind big.Mul].
  repeat (first [ rewrite modInt_Exp_nonneg by lia
                | unfold common.ModInt at 1;
                  rewrite modInt_Mul_value by lia ];
          cbn [bind]).
  match goal with
  | |- context [common.RejectionSample O ?u ?h] =>
      destruct (challenge_inv O q h HO) as (e & -> & He)
  end.
  repeat (first [ rewrite modInt_Exp_nonneg by lia
                | unfold common.ModInt at 1;
                  rewrite modInt_Mul_value by lia ];
          cbn [bind]).
  cbn [big.Mul big.Add deref bind]. eexists. reflexivity.
Qed.

End AliceProver.

(* ===================================================================== *)
(** ** Structural completeness of returned proofs *)
(* ===================================================================== *)

Section Structural.

(** C8: every proof value handed back is structurally complete: whatever
    [ProveRangeAlice] returns is a non-nil proof with six non-nil fields,
    and it does return one on well-formed inputs; every proof that
    [NewProof] or [NewProofFromBytes] returns with a nil error passes
    [ValidateBasic]. *)
Theorem returned_proofs_are_complete :
  (forall EC O rnd pk c NTilde h1 h2 m r res,
      mta.ProveRangeAlice EC O rnd pk c NTilde h1 h2 m r = Ret res ->
      exists p, res = Some p /\ alice_complete p = true)
  /\ (forall EC O rnd k c q n g nt v1 v2 mv rv,
      EC = Some {| elliptic.N := Some q |} ->
      paillier.N k = Some n -> paillier.Gamma k = Some g ->
      0 < n -> nt <> 0 -> 0 <= mv ->
      mtaspec.nonneg_draws rnd = true ->
      common.challenges_in_range O q ->
      exists p,
        mta.ProveRangeAlice EC O rnd (Some k) c (Some nt) (Some v1) (Some v2)
                            (Some mv) (Some rv) = Ret (Some p)
        /\ alice_complete p = true)
  /\ (forall O rnd ec N0 NCap s t N0p N0q res,
      facproof.NewProof O rnd ec N0 NCap s t N0p N0q = Ret (res, None) ->
      exists pf,
        res = Some pf /\ facproof.ValidateBasic (Some pf) = Ret true)
  /\ (forall bzs res,
      facproof.NewProofFromBytes bzs = Ret (res, None) ->
      exists pf,
        res = Some pf /\ facproof.ValidateBasic (Some pf) = Ret true).
Proof.
  repeat split.
  - intros. eapply ProveRangeAlice_returns_complete; eassumption.
  - intros EC O rnd k c q n g nt v1 v2 mv rv HEC Hn Hg Hnpos Hnt Hm Hd HO.
    destruct (ProveRangeAlice_returns EC O rnd k c q n g nt v1 v2 mv rv
                HEC Hn Hg Hnpos Hnt Hm Hd HO) as (p & Hp).
    exists p. split; [exact Hp|].
    destruct (ProveRangeAlice_returns_complete _ _ _ _ _ _ _ _ _ _ _ Hp)
      as (p' & [= <-] & Hc).
    exact Hc.
  - intros O rnd ec N0 NCap s t N0p N0q res H.
    destruct (NewProof_returns_complete _ _ _ _ _ _ _ _ _ _ H)
      as (pf & -> & Hnil).
    exists pf. split; [reflexivity|].
    now rewrite ValidateBasic_value, Hnil.
  - intros bzs res H.
    destruct (NewProofFromBytes_returns_complete _ _ H) as (pf & -> & Hnil).
    exists pf. split; [reflexivity|].
    now rewrite ValidateBasic_value, Hnil.
Qed.

End Structural.

(* ===================================================================== *)
(** ** Concrete runs *)
(* ===================================================================== *)

Section ConcreteRuns.
Import fixtures.

Lemma oracle3_in_range : common.challenges_in_range oracle3 7.
Proof. intros h. reflexivity. Defined.

Lemma oracle1_in_range : common.challenges_in_range oracle1 7.
Proof. intros h. reflexivity. Defined.

(** An honest run of the factorization proof is accepted. *)
Lemma small_run_verifies :
  (res <- facproof.NewProof oracle3 draws_small ec7 (Some 15) (Some 11)
                            (Some 2) (Some 3) (Some 3) (Some 5) ;;
   facproof.Verify oracle3 (fst res) ec7 (Some 15) (Some 11) (Some 2)
                   (Some 3)) = Ret true.
Proof. vm_compute. reflexivity. Qed.

(** An honest run of Alice's range proof is accepted. *)
Lemma alice_run_verifies :
  (p <- mta.ProveRangeAlice ec7 oracle3 alice_draws (Some alice_key) alice_c
                            (Some 11) (Some 2) (Some 3) (Some 2) (Some 2) ;;
   mta.Verify ec7 oracle3 p (Some alice_key) (Some 11) (Some 2) (Some 3)
              alice_c) = Ret true.
Proof. vm_compute. reflexivity. Qed.

(** A base that is not a unit mod NCap (here s = 22 = 2·11) gives a
    commitment P = 0 that the gcd check rejects, whatever the challenge. *)
Lemma non_unit_base_is_rejected :
  honest_draws draws_small 7 15 11 = true
  /\ (res <- facproof.NewProof oracle3 draws_small ec7 (Some 15) (Some 11)
                               (Some 22) (Some 3) (Some 3) (Some 5) ;;
      facproof.Verify oracle3 (fst res) ec7 (Some 15) (Some 11) (Some 22)
                      (Some 3)) = Ret false.
Proof. split; vm_compute; reflexivity. Qed.

(** C1, counterexample: N0 = 15 = 3·5, NCap = 11, the bases 2 and 3 are
    units mod 11, the draws are in their intervals with alpha = l·q·√N0 - 1
    and the challenge is 1: Z1 = 1·3 + 688127 is not below 688128 and
    [Verify] rejects the proof that [NewProof] returned. *)
Lemma completeness_fails_for_alpha_at_top :
  common.challenges_in_range oracle1 7
  /\ 15 = 3 * 5
  /\ in_declared_bit_range 3 = true /\ in_declared_bit_range 5 = true
  /\ 0 < 11 /\ Z.gcd 2 11 = 1 /\ Z.gcd 3 11 = 1
  /\ honest_draws draws_top 7 15 11 = true
  /\ (res <- facproof.NewProof oracle1 draws_top ec7 (Some 15) (Some 11)
                               (Some 2) (Some 3) (Some 3) (Some 5) ;;
      facproof.Verify oracle1 (fst res) ec7 (Some 15) (Some 11) (Some 2)
                      (Some 3)) = Ret false.
Proof.
  split; [exact oracle1_in_range|].
  repeat split; vm_compute; reflexivity.
Qed.

(** C1, witness *)
Lemma honest_proof_verifies_iff_responses_in_range_witness :
  exists pf e a b v sg r,
    facproof.alpha draws_small = Some a /\ facproof.beta draws_small = Some b
    /\ facproof.nu draws_small = Some v
    /\ facproof.sigma draws_small = Some sg
    /\ facproof.r draws_small = Some r
    /\ facproof.NewProof oracle3 draws_small ec7 (Some 15) (Some 11) (Some 2)
                         (Some 3) (Some 3) (Some 5) = Ret (Some pf, None)
    /\ common.RejectionSample oracle3 (Some 7)
         (common.SHA512_256i oracle3
            [Some 15; Some 11; Some 2; Some 3; facproof.P pf; facproof.Q pf;
             facproof.A pf; facproof.B pf; facproof.T pf; facproof.Sigma pf])
       = Some e
    /\ 0 <= e < 7
    /\ facproof.Z1 pf = Some (e * 3 + a)
    /\ facproof.Z2 pf = Some (e * 5 + b)
    /\ facproof.V pf = Some (e * (sg - v * 3) + r)
    /\ facproof.Verify oracle3 (Some pf) ec7 (Some 15) (Some 11) (Some 2)
                       (Some 3)
       = Ret ((e * 3 + a <? l * 7 * Z.sqrt 15)
              && (e * 5 + b <? l * 7 * Z.sqrt 15)
              && (0 <=? e * (sg - v * 3) + r))
    /\ (facproof.Verify oracle3 (Some pf) ec7 (Some 15) (Some 11) (Some 2)
                        (Some 3) = Ret true
        <-> responses_in_range pf 7 15 = true)
    /\ (a + (7 - 1) * 3 < l * 7 * Z.sqrt 15 ->
        b + (7 - 1) * 5 < l * 7 * Z.sqrt 15 -> v * 3 <= sg ->
        facproof.Verify oracle3 (Some pf) ec7 (Some 15) (Some 11) (Some 2)
                        (Some 3) = Ret true).
Proof.
  apply (honest_proof_verifies_iff_responses_in_range
           oracle3 7 15 11 2 3 3 5 draws_small).
  - exact oracle3_in_range.
  - reflexivity.
  - reflexivity.
  - reflexivity.
  - reflexivity.
  - reflexivity.
  - reflexivity.
  - vm_compute. reflexivity.
Defined.

(** C3, witness *)
Lemma Verify_interval_and_gcd_checks_witness :
  let p := honest_proof 11 2 3 3 5 688127 6 1 2 100000 1 4 9 1 in
  let run := facproof.Verify oracle1 (Some p) ec7 (Some 15) (Some 11)
                             (Some 2) (Some 3) in
  (interval_checks p 7 15 11 = false \/ coprimality_checks p 11 = false ->
   run = Ret false)
  /\ (run = Ret true ->
      interval_checks p 7 15 11 = true /\ coprimality_checks p 11 = true)
  /\ (interval_checks p 7 15 11 = true -> coprimality_checks p 11 = true ->
      run = facproof.equality_checks oracle1 p (Some 7) (Some 15) (Some 11)
                                     (Some 2) (Some 3)).
Proof.
  apply (Verify_interval_and_gcd_checks oracle1
           (honest_proof 11 2 3 3 5 688127 6 1 2 100000 1 4 9 1)
           7 15 11 2 3); reflexivity.
Defined.

(** C4, witness *)
Lemma Verify_rejects_S1_above_q3_witness :
  (7 ^ 3 < 344 ->
   mta.Verify ec7 oracle3 (Some (unit_proof (Some 344))) (Some unit_key)
              (Some 11) (Some 1) (Some 1) (Some 1) = Ret false)
  /\ (344 = 7 ^ 3 ->
      mta.Verify ec7 oracle3 (Some (unit_proof (Some 344))) (Some unit_key)
                 (Some 11) (Some 1) (Some 1) (Some 1)
      = mta.equality_checks oracle3 (unit_proof (Some 344)) unit_key
                            (Some 7) (Some 11) (Some 1) (Some 1) (Some 1)).
Proof.
  apply (Verify_rejects_S1_above_q3 ec7 oracle3 (unit_proof (Some 344))
           unit_key 7 5 344 (Some 11) (Some 1) (Some 1) (Some 1));
    (reflexivity || discriminate).
Defined.

(** C9, witness *)
Lemma Verify_bound_is_one_sided_witness :
  mta.Verify ec7 oracle3 (Some (unit_proof (Some (-4)))) (Some unit_key)
             (Some 11) (Some 1) (Some 1) (Some 1)
  = mta.equality_checks oracle3 (unit_proof (Some (-4))) unit_key
                        (Some 7) (Some 11) (Some 1) (Some 1) (Some 1).
Proof.
  apply (Verify_bound_is_one_sided ec7 oracle3 (unit_proof (Some (-4)))
           unit_key 7 5 (-4) (Some 11) (Some 1) (Some 1) (Some 1));
    try (reflexivity || discriminate).
  right. split; [discriminate | reflexivity].
Defined.

(** A proof with a negative S1 is accepted when the two equalities hold. *)
Lemma negative_S1_is_accepted :
  mta.Verify ec7 oracle3 (Some (unit_proof (Some (-4)))) (Some unit_key)
             (Some 11) (Some 1) (Some 1) (Some 1) = Ret true.
Proof. vm_compute. reflexivity. Qed.

(** C5, witness *)
Lemma Verify_short_circuits_witness :
  facproof.Verify oracle3 (Some (honest_proof 11 2 3 3 5 5 6 1 2 100000 1 4 9 3))
                  ec7 (Some 0) (Some 11) (Some 2) (Some 3) = Ret false.
Proof.
  apply Verify_short_circuits.
  do 7 right. left. exists 0. split; [reflexivity | discriminate].
Defined.


(** C6, counterexample: an honest run whose sigma is drawn as 0 gives a
    proof that [Verify] accepts and whose fields are all non-negative;
    [Bytes()] encodes Sigma as an empty part and [NewProofFromBytes]
    answers with the format error. *)
Lemma roundtrip_fails_on_zero_field :
  exists pf,
    facproof.NewProof oracle3 draws_zero_sigma ec7 (Some 15) (Some 11)
                      (Some 2) (Some 3) (Some 3) (Some 5) = Ret (Some pf, None)
    /\ honest_draws draws_zero_sigma 7 15 11 = true
    /\ facproof.Verify oracle3 (Some pf) ec7 (Some 15) (Some 11) (Some 2)
                       (Some 3) = Ret true
    /\ all_nonneg pf = true
    /\ (bzs <- facproof.Bytes (Some pf) ;; facproof.NewProofFromBytes bzs)
       = Ret (None,
              Some "expected 11 byte parts to construct ProofFac"%string).
Proof.
  eexists. split; [vm_compute; reflexivity|].
  repeat split; vm_compute; reflexivity.
Qed.

(** C6, witness *)
Lemma Bytes_roundtrip_of_positive_fields_witness :
  exists bzs pf',
    facproof.Bytes (Some (honest_proof 11 2 3 3 5 5 6 1 2 100000 1 4 9 3))
    = Ret bzs
    /\ bzs = map field_bytes
               (fields (honest_proof 11 2 3 3 5 5 6 1 2 100000 1 4 9 3))
    /\ facproof.NewProofFromBytes bzs = Ret (Some pf', None)
    /\ pf' = honest_proof 11 2 3 3 5 5 6 1 2 100000 1 4 9 3
    /\ facproof.Bytes (Some pf') = Ret bzs.
Proof.
  apply Bytes_roundtrip_of_positive_fields. vm_compute. reflexivity.
Defined.

(** C7, witness *)
Lemma NewProofFromBytes_format_witness :
  facproof.NewProofFromBytes (repeat [x01] 10)
  = Ret (None, Some "expected 11 byte parts to construct ProofFac"%string)
  /\ facproof.NewProofFromBytes (repeat [x01] 5 ++ [[]] ++ repeat [x01] 5)
     = Ret (None, Some "expected 11 byte parts to construct ProofFac"%string)
  /\ facproof.NewProofFromBytes (repeat [x01; x00] 11)
     = Ret (Some (decode (repeat [x01; x00] 11)), None).
Proof.
  split; [|split].
  - apply (proj1 (NewProofFromBytes_format (repeat [x01] 10))).
    left. discriminate.
  - apply (proj1 (NewProofFromBytes_format
                    (repeat [x01] 5 ++ [[]] ++ repeat [x01] 5))).
    right. cbn. tauto.
  - apply (proj2 (NewProofFromBytes_format (repeat [x01; x00] 11))).
    + reflexivity.
    + cbn. intros H. repeat (destruct H as [H|H]; [discriminate H|]).
      exact H.
Defined.

(** C8, witness *)
Lemma returned_proofs_are_complete_witness :
  (exists p,
      mta.ProveRangeAlice ec7 oracle3 alice_draws (Some alice_key) alice_c
                          (Some 11) (Some 2) (Some 3) (Some 2) (Some 2)
      = Ret (Some p) /\ alice_complete p = true)
  /\ (exists pf,
      Some (honest_proof 11 2 3 3 5 5 6 1 2 100000 1 4 9 3) = Some pf
      /\ facproof.ValidateBasic (Some pf) = Ret true)
  /\ (exists pf,
      Some (decode (repeat [x01; x00] 11)) = Some pf
      /\ facproof.ValidateBasic (Some pf) = Ret true).
Proof.
  destruct returned_proofs_are_complete as (_ & HA & HN & HB).
  split; [|split].
  - apply (HA ec7 oracle3 alice_draws alice_key alice_c 7 15 16 11 2 3 2 2);
      try reflexivity.
    + discriminate.
    + discriminate.
    + exact oracle3_in_range.
  - apply (HN oracle3 draws_small ec7 (Some 15) (Some 11) (Some 2) (Some 3)
              (Some 3) (Some 5)).
    vm_compute. reflexivity.
  - apply (HB (repeat [x01; x00] 11)). vm_compute. reflexivity.
Defined.



End ConcreteRuns.

(* ===================================================================== *)
(** * Further properties of the two packages *)
(* ===================================================================== *)

Section VerifySpec.
Import facproof facmath.

Lemma interval_checks_inv (p : ProofFac) (q n0 nc : Z) :
  interval_checks p q n0 nc = true ->
  nonneg (P p) = true /\ nonneg (Q p) = true /\ nonneg (A p) = true
  /\ nonneg (B p) = true /\ nonneg (T p) = true /\ nonneg (Sigma p) = true
  /\ nonneg (Z1 p) = true /\ nonneg (Z2 p) = true /\ nonneg (W1 p) = true
  /\ nonneg (W2 p) = true /\ nonneg (V p) = true.
Proof.
  unfold interval_checks. rewrite !andb_true_iff.
  assert (H : forall v b, in_interval v b = true -> nonneg v = true).
  { intros [a|] b; cbn; [|discriminate].
    rewrite andb_true_iff. tauto. }
  intros [[[[[[[[[[HP HQ] HA] HB] HT] HS] HW1] HW2] HV] HZ1] HZ2].
  repeat split; eapply H; eassumption.
Qed.

Lemma equality_checks_value O (p : ProofFac) (q n0 nc sv tv e : Z) :
  has_nil_field p = false -> 0 < n0 -> 0 < nc ->
  interval_checks p q n0 nc = true ->
  challenge_of O p q n0 nc sv tv = Some e -> 0 <= e ->
  equality_checks O p (Some q) (Some n0) (Some nc) (Some sv) (Some tv)
  = Ret (equalities p e n0 nc sv tv).
Proof.
  intros Hnil Hn0 Hnc HI He Hepos.
  apply interval_checks_inv in HI.
  destruct (nil_field_free_inv p Hnil)
    as (vP & vQ & vA & vB & vT & vS & vZ1 & vZ2 & vW1 & vW2 & vV & ->).
  unfold challenge_of in He. cbn [P Q A B T Sigma] in He.
  cbn [P Q A B T Sigma Z1 Z2 W1 W2 V nonneg] in HI.
  rewrite !Z.leb_le in HI.
  destruct HI as (HP & HQ & HA & HB & HT & HS & HZ1 & HZ2 & HW1 & HW2 & HV).
  unfold equality_checks, equalities, congruent.
  cbn [P Q A B T Sigma Z1 Z2 W1 W2 V val].
  match goal with
  | |- context [common.RejectionSample O ?c ?h] =>
      replace (common.RejectionSample O c h) with (Some e)
        by (symmetry; exact He)
  end.
  repeat (first [ rewrite Exp_pos by lia
                | rewrite modInt_Mul_pos by lia
                | rewrite cmp_is_zero_value ];
          cbn [bind]).
  rewrite <- !(Z.mul_mod (sv ^ _) (tv ^ _)) by lia.
  rewrite <- (Z.mul_mod (vQ ^ _) (tv ^ _)) by lia.
  rewrite !Z.mul_mod_idemp_r by lia.
  destruct (_ =? _); [|reflexivity].
  destruct (_ =? _); [|reflexivity].
  destruct (_ =? _); reflexivity.
Qed.


Lemma Verify_value O (p : ProofFac) (q n0 nc sv tv e : Z) :
  has_nil_field p = false -> 0 < n0 -> 0 < nc ->
  challenge_of O p q n0 nc sv tv = Some e -> 0 <= e ->
  Verify O (Some p) (Some {| elliptic.N := Some q |}) (Some n0) (Some nc)
         (Some sv) (Some tv)
  = Ret (interval_checks p q n0 nc && coprimality_checks p nc
         && equalities p e n0 nc sv tv).
Proof.
  intros Hnil Hn0 Hnc He Hepos.
  rewrite Verify_unfold by assumption.
  destruct (interval_checks p q n0 nc) eqn:HI; [|reflexivity].
  destruct (coprimality_checks p nc); [|reflexivity].
  cbn [andb]. now apply equality_checks_value.
Qed.

(** X1: [ProofFac.Verify] is a conjunction of checks.  For a proof without a
    nil field, positive [N0] and [NCap], and a non-negative challenge [e]
    recomputed from the hash of the public values and the commitments,
    [Verify] returns exactly the conjunction of the eleven interval checks,
    the five gcd checks and the three congruences
    [s^Z1 t^W1 = A P^e], [s^Z2 t^W2 = B Q^e] and [Q^Z1 t^V = T R^e]
    modulo [NCap], where [R = s^N0 t^Sigma mod NCap]; in particular it
    returns. *)
Theorem Verify_refines_checks O (p : ProofFac) (q n0 nc sv tv e : Z) :
  has_nil_field p = false -> 0 < n0 -> 0 < nc ->
  challenge_of O p q n0 nc sv tv = Some e -> 0 <= e ->
  Verify O (Some p) (Some {| elliptic.N := Some q |}) (Some n0) (Some nc)
         (Some sv) (Some tv)
  = Ret (interval_checks p q n0 nc && coprimality_checks p nc
         && equalities p e n0 nc sv tv).
Proof.
  intros Hnil Hn0 Hnc He Hepos.
  rewrite Verify_unfold by assumption.
  destruct (interval_checks p q n0 nc) eqn:HI; [|reflexivity].
  destruct (coprimality_checks p nc); [|reflexivity].
  cbn [andb]. now apply equality_checks_value.
Qed.

(** X2: [ProofFac.Verify] never panics.  Whatever the proof and the public
    inputs are, nil pointers, nil fields, zero or negative moduli and
    out-of-range fields included, [Verify] returns a boolean, provided the
    curve (when given) has an order and the rejection sampler returns a
    non-negative integer. *)
Theorem Verify_never_panics O pf ec N0 NCap s t :
  (forall c, ec = Some c -> elliptic.N c <> None) ->
  (forall q h, nonneg (common.RejectionSample O q h) = true) ->
  exists b, Verify O pf ec N0 NCap s t = Ret b.
Proof.
  intros Hec HO.
  destruct pf as [p|];
    [|exists false; apply Verify_nil_guard; auto].
  destruct (has_nil_field p) eqn:Hnil;
    [exists false; now apply Verify_nil_field|].
  destruct ec as [[[q|]]|];
    [ | exfalso; now apply (Hec _ eq_refl)
      | exists false; apply Verify_nil_guard; auto ].
  destruct N0 as [n0|]; [|exists false; apply Verify_nil_guard; auto].
  destruct NCap as [nc|]; [|exists false; apply Verify_nil_guard; auto 6].
  destruct s as [sv|]; [|exists false; apply Verify_nil_guard; auto 6].
  destruct t as [tv|]; [|exists false; apply Verify_nil_guard; auto 7].
  destruct (Z_lt_le_dec 0 n0) as [Hn0|Hn0];
    [|exists false; apply Verify_nonpositive; left; eauto].
  destruct (Z_lt_le_dec 0 nc) as [Hnc|Hnc];
    [|exists false; apply Verify_nonpositive; right; eauto].
  pose proof (HO (Some q)
                (common.SHA512_256i O
                   [Some n0; Some nc; Some sv; Some tv; P p; Q p; A p; B p;
                    T p; Sigma p])) as He.
  fold (challenge_of O p q n0 nc sv tv) in He.
  destruct (challenge_of O p q n0 nc sv tv) as [e|] eqn:Hch;
    [|discriminate He].
  cbn in He. apply Z.leb_le in He.
  eexists. now apply (Verify_value O p q n0 nc sv tv e).
Qed.


(** X3: [ProofFac.Verify] does not check its bases.  With [s = t = 1] the
    proof whose commitments are all [1] and whose responses are all [0] is
    accepted for every positive [N0], every [NCap > 1] and every curve
    order, whatever the factors of [N0] are: the three congruences hold
    trivially and every interval contains [0]. *)
Theorem Verify_accepts_trivial_bases O (q n0 nc : Z) :
  0 < q -> 0 < n0 -> 1 < nc ->
  nonneg (challenge_of O trivial_proof q n0 nc 1 1) = true ->
  Verify O (Some trivial_proof) (Some {| elliptic.N := Some q |}) (Some n0)
         (Some nc) (Some 1) (Some 1) = Ret true.
Proof.
  intros Hq Hn0 Hnc He.
  destruct (challenge_of O trivial_proof q n0 nc 1 1) as [e|] eqn:Hch;
    [|discriminate He].
  cbn in He. apply Z.leb_le in He.
  rewrite (Verify_value O trivial_proof q n0 nc 1 1 e)
    by (reflexivity || lia || assumption).
  f_equal. unfold equalities. rewrite !andb_true_iff. repeat split.
  - unfold interval_checks, trivial_proof.
    cbn [P Q A B T Sigma Z1 Z2 W1 W2 V].
    assert (Hl : l = 32768) by reflexivity.
    assert (Hs : 0 < Z.sqrt n0) by (apply Z.sqrt_pos; lia).
    rewrite !andb_true_iff, !in_interval_true, Hl.
    repeat split; nia.
  - unfold coprimality_checks, trivial_proof, coprime_to.
    cbn [P Q A B T]. rewrite Z.gcd_1_l. reflexivity.
  - unfold congruent, trivial_proof. cbn [Z1 W1 A P val].
    rewrite !Z.pow_1_l by lia. apply Z.eqb_refl.
  - unfold congruent, trivial_proof. cbn [Z2 W2 B Q val].
    rewrite !Z.pow_1_l by lia. apply Z.eqb_refl.
  - unfold congruent, trivial_proof. cbn [Z1 V T Q Sigma val].
    rewrite !Z.pow_1_l by lia. rewrite !Z.mul_1_l.
    rewrite (Z.mod_small 1 nc) by lia.
    rewrite !Z.pow_1_l by lia. rewrite (Z.mod_small 1 nc) by lia.
    reflexivity.
Qed.

End VerifySpec.

Section Inversions.

Lemma isnil_true {A : Type} (p : option A) : isnil p = true -> p = None.
Proof. destruct p; [discriminate | reflexivity]. Qed.

Lemma isnil_false {A : Type} (p : option A) :
  isnil p = false -> exists a, p = Some a.
Proof. destruct p; [eauto | discriminate]. Qed.

Lemma deref_inv {A : Type} (p : option A) (a : A) :
  deref p = Ret a -> p = Some a.
Proof. destruct p; cbn; [intros [= ->]; reflexivity | discriminate]. Qed.

Lemma Mul_inv (x y z : big.Int) :
  big.Mul x y = Ret z ->
  exists a b, x = Some a /\ y = Some b /\ z = Some (a * b).
Proof.
  destruct x as [a|], y as [b|]; cbn; try discriminate.
  intros [= <-]. eauto.
Qed.

Lemma Add_inv (x y z : big.Int) :
  big.Add x y = Ret z ->
  exists a b, x = Some a /\ y = Some b /\ z = Some (a + b).
Proof.
  destruct x as [a|], y as [b|]; cbn; try discriminate.
  intros [= <-]. eauto.
Qed.

Lemma Sub_inv (x y z : big.Int) :
  big.Sub x y = Ret z ->
  exists a b, x = Some a /\ y = Some b /\ z = Some (a - b).
Proof.
  destruct x as [a|], y as [b|]; cbn; try discriminate.
  intros [= <-]. eauto.
Qed.

Lemma modInt_Mul_inv (m x y z : big.Int) :
  common.modInt.Mul m x y = Ret z ->
  exists n a b,
    m = Some n /\ n <> 0 /\ x = Some a /\ y = Some b
    /\ z = Some (a * b mod Z.abs n) /\ 0 <= a * b mod Z.abs n < Z.abs n.
Proof.
  unfold common.modInt.Mul, big.Mul, big.Mod.
  destruct x as [a|], y as [b|]; cbn; try discriminate.
  destruct m as [n|]; cbn; [|discriminate].
  destruct (Z.eqb_spec n 0) as [->|Hn]; [discriminate|].
  intros [= <-]. exists n, a, b. repeat split; try assumption.
  - apply Z.mod_pos_bound. lia.
  - apply Z.mod_pos_bound. lia.
Qed.

Lemma Exp_args_nonnil (x y m z : big.Int) :
  big.Exp x y m = Ret z -> isnil x = false /\ isnil y = false.
Proof.
  unfold big.Exp. destruct x, y; cbn; try discriminate. auto.
Qed.

End Inversions.

Section ProverShape.
Import facproof facmath.

Ltac split_binds :=
  repeat match goal with
         | H : bind _ _ = Ret _ |- _ =>
             let a := fresh "v" in
             let Ha := fresh "Hv" in
             apply bind_Ret_inv in H as (a & Ha & H)
         end.

(** X4: the error of [NewProof].  When one of its seven arguments is nil,
    [NewProof] returns a nil proof together with the constructor error and
    draws nothing; when none is nil, every return of [NewProof] carries a
    proof and a nil error, so the error is returned for nil arguments
    only. *)
Theorem NewProof_error_iff_nil_argument O rnd ec N0 NCap s t N0p N0q :
  (some_nil ec N0 NCap s t N0p N0q = true ->
   NewProof O rnd ec N0 NCap s t N0p N0q
   = Ret (None, Some "ProveFac constructor received nil value(s)"%string))
  /\ (some_nil ec N0 NCap s t N0p N0q = false ->
      forall res err,
        NewProof O rnd ec N0 NCap s t N0p N0q = Ret (res, err) ->
        err = None /\ exists pf, res = Some pf).
Proof.
  unfold some_nil, NewProof. split; intros Hnil.
  - now rewrite Hnil.
  - rewrite Hnil. intros res err H. split_binds.
    injection H as <- <-. eauto.
Qed.

(** X5: shape of the proof returned by [NewProof].  In every returned
    proof the commitments [P], [Q], [A], [B], [T] are reduced modulo
    [NCap] (they lie in [0, |NCap|)), [Sigma] is the drawn value, and the
    responses are computed over the integers, without any reduction:
    [Z1 = e N0p + alpha], [Z2 = e N0q + beta], [W1 = e mu + x],
    [W2 = e nu + y] and [V = e (sigma - nu N0p) + r], where [e] is the
    challenge sampled from the hash of [N0, NCap, s, t] and the six
    commitments. *)
Theorem NewProof_output_shape O rnd ec N0 NCap s t N0p N0q pf err :
  NewProof O rnd ec N0 NCap s t N0p N0q = Ret (Some pf, err) ->
  output_shape O rnd ec N0 NCap s t N0p N0q pf.
Proof.
  unfold output_shape, NewProof, common.GetRandomPositiveInt,
    common.GetRandomPositiveRelativelyPrimeInt.
  destruct (isnil ec || isnil N0 || isnil NCap || isnil s || isnil t
            || isnil N0p || isnil N0q); [discriminate|].
  intros H. split_binds. injection H as <- <-.
  repeat match goal with
         | H : common.modInt.Mul _ _ _ = Ret _ |- _ =>
             apply modInt_Mul_inv in H
               as (? & ? & ? & ? & ? & ? & ? & ? & ?)
         | H : big.Add _ _ = Ret _ |- _ =>
             apply Add_inv in H as (? & ? & ? & ? & ?)
         | H : big.Sub _ _ = Ret _ |- _ =>
             apply Sub_inv in H as (? & ? & ? & ? & ?)
         | H : big.Mul _ _ = Ret _ |- _ =>
             apply Mul_inv in H as (? & ? & ? & ? & ?)
         | H : elliptic.Params _ = Ret _ |- _ => apply deref_inv in H
         end.
  destruct rnd as [fa fb fu fv fsg fr fx fy].
  cbn [alpha beta mu nu sigma r x y] in *.
  unfold common.ModInt in *.
  subst.
  repeat match goal with
         | H : Some _ = Some _ |- _ => injection H as H; try subst
         end.
  do 13 eexists.
  repeat match goal with
         | |- _ /\ _ => split
         end;
    try reflexivity; try eassumption;
    cbn [P Q A B T Sigma Z1 Z2 W1 W2 V];
    try (apply in_interval_true; assumption);
    try congruence.
Qed.

End ProverShape.

Section Wire.
Import facproof facwire.

Lemma digits_zero (fuel : nat) : big.digits fuel 0 = [].
Proof. destruct fuel; reflexivity. Qed.

Lemma byte_of_to_N_id (d : byte) : big.byte_of (Byte.to_N d) = d.
Proof. unfold big.byte_of. now rewrite Byte.of_to_N. Qed.

Lemma canonical_value (ds : list byte) :
  canonical ds -> ds <> [] -> le_value ds <> 0%N.
Proof.
  induction 1 as [|d Hd|d ds Hne Hc IH]; intros Hnil.
  - contradiction.
  - cbn. lia.
  - cbn [le_value]. specialize (IH Hne). lia.
Qed.

Lemma digits_le_value (ds : list byte) :
  canonical ds ->
  forall fuel : nat,
    (le_value ds < 2 ^ N.of_nat fuel)%N -> big.digits fuel (le_value ds) = ds.
Proof.
  induction 1 as [|d Hd|d ds Hne Hc IH]; intros fuel Hfuel.
  - cbn. apply digits_zero.
  - cbn [le_value] in *. rewrite N.mul_0_r, N.add_0_r in *.
    pose proof (Byte.to_N_bounded d) as Hb.
    destruct fuel as [|fuel];
      [change (N.of_nat 0) with 0%N in Hfuel; rewrite N.pow_0_r in Hfuel; lia|].
    cbn [big.digits].
    destruct (N.eqb_spec (Byte.to_N d) 0) as [E|_]; [contradiction|].
    rewrite N.mod_small by lia. rewrite byte_of_to_N_id.
    rewrite N.div_small by lia. now rewrite digits_zero.
  - pose proof (canonical_value ds Hc Hne) as Hv.
    pose proof (Byte.to_N_bounded d) as Hb.
    cbn [le_value] in *.
    destruct fuel as [|fuel];
      [change (N.of_nat 0) with 0%N in Hfuel; rewrite N.pow_0_r in Hfuel; lia|].
    rewrite Nat2N.inj_succ, N.pow_succ_r' in Hfuel.
    cbn [big.digits].
    destruct (N.eqb_spec (Byte.to_N d + 256 * le_value ds) 0) as [E|_];
      [lia|].
    assert (Hmod : ((Byte.to_N d + 256 * le_value ds) mod 256
                    = Byte.to_N d)%N).
    { replace (Byte.to_N d + 256 * le_value ds)%N
        with (Byte.to_N d + le_value ds * 256)%N by lia.
      rewrite N.Div0.mod_add. apply N.mod_small. lia. }
    assert (Hdiv : ((Byte.to_N d + 256 * le_value ds) / 256
                    = le_value ds)%N).
    { replace (Byte.to_N d + 256 * le_value ds)%N
        with (Byte.to_N d + le_value ds * 256)%N by lia.
      rewrite N.div_add by lia. rewrite N.div_small by lia. lia. }
    rewrite Hmod, Hdiv, byte_of_to_N_id. f_equal. apply IH. lia.
Qed.

Lemma canonical_snoc (xs : list byte) (b : byte) :
  Byte.to_N b <> 0%N -> canonical (xs ++ [b]).
Proof.
  intros Hb. induction xs as [|x xs IH].
  - now apply canonical_top.
  - cbn. apply canonical_cons; [|exact IH].
    destruct xs; discriminate.
Qed.

Lemma BytesZ_of_N (n : N) :
  big.BytesZ (Z.of_N n) = rev (big.digits (N.to_nat (N.size n)) n).
Proof. unfold big.BytesZ. now rewrite Zabs2N.id. Qed.

Lemma BytesZ_minimal (b : byte) (bs : list byte) :
  Byte.to_N b <> 0%N -> big.BytesZ (big_endian (b :: bs)) = b :: bs.
Proof.
  intros Hb.
  rewrite <- SetBytesZ_big_endian.
  rewrite <- (rev_involutive (b :: bs)) at 1.
  rewrite SetBytesZ_rev, BytesZ_of_N.
  rewrite digits_le_value.
  - apply rev_involutive.
  - cbn [rev]. now apply canonical_snoc.
  - rewrite N2Nat.id. apply N.size_gt.
Qed.

Lemma big_endian_zero_head (b : byte) (bs : list byte) :
  Byte.to_N b = 0%N -> big_endian (b :: bs) = big_endian bs.
Proof.
  intros Hb. cbn [big_endian]. unfold big.byte_val. rewrite Hb. lia.
Qed.

Lemma BytesZ_big_endian (bs : list byte) :
  big.BytesZ (big_endian bs) = strip_zeros bs.
Proof.
  induction bs as [|b bs IH]; [reflexivity|].
  cbn [strip_zeros].
  destruct (N.eqb_spec (Byte.to_N b) 0) as [E|E].
  - now rewrite big_endian_zero_head.
  - now apply BytesZ_minimal.
Qed.

Lemma big_endian_bound (bs : list byte) :
  0 <= big_endian bs < 256 ^ Z.of_nat (List.length bs).
Proof.
  induction bs as [|b bs IH]; [cbn; lia|].
  cbn [big_endian List.length].
  rewrite Nat2Z.inj_succ, Z.pow_succ_r by lia.
  pose proof (Byte.to_N_bounded b) as Hb.
  unfold big.byte_val.
  assert (0 <= Z.of_N (Byte.to_N b) <= 255) by lia.
  nia.
Qed.

End Wire.

Section WireTheorems.
Import facproof facwire.

Lemma Bytes_value (pf : ProofFac) :
  has_nil_field pf = false ->
  Bytes (Some pf) = Ret (map field_bytes (fields pf)).
Proof.
  intros Hnil.
  destruct (nil_field_free_inv pf Hnil)
    as (vP & vQ & vA & vB & vT & vS & vZ1 & vZ2 & vW1 & vW2 & vV & ->).
  reflexivity.
Qed.

Lemma Bytes_panics (pf : ProofFac) :
  has_nil_field pf = true -> Bytes (Some pf) = Panic.
Proof.
  destruct pf as [fP fQ fA fB fT fS fZ1 fZ2 fW1 fW2 fV].
  unfold has_nil_field, Bytes.
  cbn [P Q A B T Sigma Z1 Z2 W1 W2 V deref bind].
  intros H.
  destruct fP; [|reflexivity]. destruct fQ; [|reflexivity].
  destruct fA; [|reflexivity]. destruct fB; [|reflexivity].
  destruct fT; [|reflexivity]. destruct fS; [|reflexivity].
  destruct fZ1; [|reflexivity]. destruct fZ2; [|reflexivity].
  destruct fW1; [|reflexivity]. destruct fW2; [|reflexivity].
  destruct fV; [|reflexivity].
  discriminate H.
Qed.

(** X6: [ProofFac.Bytes] returns exactly on complete proofs.  When
    [ValidateBasic] holds, [Bytes] returns the eleven encodings of the
    fields in the order [P, Q, A, B, T, Sigma, Z1, Z2, W1, W2, V], and the
    number of parts is [ProofFacBytesParts]; when [ValidateBasic] fails on
    a non-nil proof, [Bytes] panics on the nil field. *)
Theorem Bytes_returns_iff_complete (pf : ProofFac) :
  (ValidateBasic (Some pf) = Ret true ->
   Bytes (Some pf) = Ret (map field_bytes (fields pf))
   /\ List.length (map field_bytes (fields pf)) = ProofFacBytesParts)
  /\ (ValidateBasic (Some pf) = Ret false -> Bytes (Some pf) = Panic).
Proof.
  rewrite ValidateBasic_value.
  split; intros [= H].
  - apply negb_true_iff in H. split; [now apply Bytes_value | reflexivity].
  - apply negb_false_iff in H. now apply Bytes_panics.
Qed.

Lemma BytesZ_abs (a : Z) : big.BytesZ (Z.abs a) = big.BytesZ a.
Proof.
  unfold big.BytesZ. destruct a; reflexivity.
Qed.

Lemma nonzero_field_inv (v : big.Int) :
  nonzero_field v = true -> exists a, v = Some a /\ a <> 0.
Proof.
  destruct v as [a|]; cbn; [|discriminate].
  intros H. apply negb_true_iff, Z.eqb_neq in H. eauto.
Qed.

Lemma roundtrip_abs (pf : ProofFac) :
  all_nonzero pf = true ->
  NewProofFromBytes (map field_bytes (fields pf))
  = Ret (Some (abs_proof pf), None).
Proof.
  destruct pf as [fP fQ fA fB fT fS fZ1 fZ2 fW1 fW2 fV].
  unfold all_nonzero, fields.
  cbn [P Q A B T Sigma Z1 Z2 W1 W2 V forallb].
  rewrite !andb_true_iff.
  intros (HP & HQ & HA & HB & HT & HS & HZ1 & HZ2 & HW1 & HW2 & HV & _).
  apply nonzero_field_inv in HP as (vP & -> & HP).
  apply nonzero_field_inv in HQ as (vQ & -> & HQ).
  apply nonzero_field_inv in HA as (vA & -> & HA).
  apply nonzero_field_inv in HB as (vB & -> & HB).
  apply nonzero_field_inv in HT as (vT & -> & HT).
  apply nonzero_field_inv in HS as (vS & -> & HS).
  apply nonzero_field_inv in HZ1 as (vZ1 & -> & HZ1).
  apply nonzero_field_inv in HZ2 as (vZ2 & -> & HZ2).
  apply nonzero_field_inv in HW1 as (vW1 & -> & HW1).
  apply nonzero_field_inv in HW2 as (vW2 & -> & HW2).
  apply nonzero_field_inv in HV as (vV & -> & HV).
  cbn [map field_bytes].
  rewrite NewProofFromBytes_ok.
  - unfold decode, abs_proof, abs_field. cbn [nth option_map P Q A B T Sigma
                                               Z1 Z2 W1 W2 V].
    rewrite <- !SetBytesZ_big_endian, !SetBytesZ_BytesZ. reflexivity.
  - unfold common.NonEmptyMultiBytes. cbn [List.length forallb Nat.eqb andb].
    rewrite !nonempty_length by (now apply BytesZ_nonempty).
    reflexivity.
Qed.

Lemma all_nonzero_complete (pf : ProofFac) :
  all_nonzero pf = true -> has_nil_field pf = false.
Proof.
  destruct pf as [fP fQ fA fB fT fS fZ1 fZ2 fW1 fW2 fV].
  unfold all_nonzero, fields, has_nil_field.
  cbn [P Q A B T Sigma Z1 Z2 W1 W2 V forallb].
  rewrite !andb_true_iff.
  intros (HP & HQ & HA & HB & HT & HS & HZ1 & HZ2 & HW1 & HW2 & HV & _).
  destruct fP, fQ, fA, fB, fT, fS, fZ1, fZ2, fW1, fW2, fV;
    (reflexivity || discriminate).
Qed.

(** X7: the wire format drops signs.  A proof whose fields are all
    non-zero and the proof of the absolute values of its fields have the
    same [Bytes], and [NewProofFromBytes] of these bytes is the proof of the
    absolute values: a negative [Sigma] or [V] does not survive the
    encoding. *)
Theorem Bytes_forgets_sign (pf : ProofFac) :
  all_nonzero pf = true ->
  exists bzs,
    Bytes (Some pf) = Ret bzs
    /\ Bytes (Some (abs_proof pf)) = Ret bzs
    /\ NewProofFromBytes bzs = Ret (Some (abs_proof pf), None).
Proof.
  intros H. exists (map field_bytes (fields pf)).
  split; [apply Bytes_value; now apply all_nonzero_complete|].
  split; [|now apply roundtrip_abs].
  pose proof (all_nonzero_complete pf H) as Hnil.
  destruct (nil_field_free_inv pf Hnil)
    as (vP & vQ & vA & vB & vT & vS & vZ1 & vZ2 & vW1 & vW2 & vV & ->).
  unfold abs_proof, abs_field, Bytes, fields.
  cbn [P Q A B T Sigma Z1 Z2 W1 W2 V option_map deref bind big.Bytes map
       field_bytes].
  rewrite !BytesZ_abs. reflexivity.
Qed.

End WireTheorems.

Section WireTheorems2.
Import facproof facwire.

(** X8: decoding then encoding normalises the parts.  For eleven non-empty
    parts, [NewProofFromBytes] followed by [Bytes] returns the parts with
    their leading zero bytes removed (an all-zero part becomes empty). *)
Theorem FromBytes_then_Bytes_strips_zeros (bzs : list (list byte)) :
  List.length bzs = 11%nat -> ~ In [] bzs ->
  (res <- NewProofFromBytes bzs ;; Bytes (fst res))
  = Ret (map strip_zeros bzs).
Proof.
  intros Hlen Hne.
  assert (H : common.NonEmptyMultiBytes bzs 11 = true)
    by (apply NonEmptyMultiBytes_spec; tauto).
  rewrite (NewProofFromBytes_ok bzs H). cbn [bind fst].
  destruct (NonEmptyMultiBytes_inv bzs H)
    as (b0 & b1 & b2 & b3 & b4 & b5 & b6 & b7 & b8 & b9 & b10 & ->).
  unfold Bytes, decode.
  cbn [deref bind big.Bytes nth P Q A B T Sigma Z1 Z2 W1 W2 V map].
  rewrite !BytesZ_big_endian. reflexivity.
Qed.

(** X9: decoded fields are bounded by their parts.  Every proof returned by
    [NewProofFromBytes] has eleven non-nil fields, each one non-negative
    and below [256 ^ length] of its part. *)
Theorem decoded_fields_bounded (bzs : list (list byte)) (pf : ProofFac) err :
  NewProofFromBytes bzs = Ret (Some pf, err) -> within_parts bzs pf.
Proof.
  destruct (common.NonEmptyMultiBytes bzs 11) eqn:H.
  - rewrite (NewProofFromBytes_ok bzs H). intros [= <- <-].
    destruct (NonEmptyMultiBytes_inv bzs H)
      as (b0 & b1 & b2 & b3 & b4 & b5 & b6 & b7 & b8 & b9 & b10 & ->).
    unfold within_parts, decode, fields.
    cbn [nth P Q A B T Sigma Z1 Z2 W1 W2 V].
    repeat (constructor;
            [eexists; split; [reflexivity | apply big_endian_bound]|]).
    constructor.
  - rewrite (NewProofFromBytes_err bzs H). discriminate.
Qed.

End WireTheorems2.

Section Accepted.
Import facproof facwire.

Lemma Verify_nil_order_panics O (p : ProofFac) (n0 nc : Z) (s t : big.Int) :
  has_nil_field p = false -> 0 < n0 -> 0 < nc -> s <> None -> t <> None ->
  Verify O (Some p) (Some {| elliptic.N := None |}) (Some n0) (Some nc) s t
  = Panic.
Proof.
  intros Hnil Hn0 Hnc Hs Ht.
  destruct s as [sv|]; [|contradiction]. destruct t as [tv|]; [|contradiction].
  unfold Verify. rewrite ValidateBasic_value, Hnil.
  cbn [isnil bind deref negb orb big.Sign].
  rewrite (sgn_is_one n0), (sgn_is_one nc).
  replace (0 <? n0) with true by (symmetry; apply Z.ltb_lt; lia).
  replace (0 <? nc) with true by (symmetry; apply Z.ltb_lt; lia).
  cbn [negb bind deref elliptic.Params elliptic.N big.Sqrt].
  replace (n0 <? 0) with false by (symmetry; apply Z.ltb_ge; lia).
  reflexivity.
Qed.

Lemma Verify_true_inv O pf ec N0 NCap s t :
  Verify O pf ec N0 NCap s t = Ret true ->
  exists p q n0 nc sv tv,
    pf = Some p /\ ec = Some {| elliptic.N := Some q |}
    /\ N0 = Some n0 /\ NCap = Some nc /\ s = Some sv /\ t = Some tv
    /\ has_nil_field p = false /\ 0 < n0 /\ 0 < nc
    /\ interval_checks p q n0 nc = true
    /\ coprimality_checks p nc = true.
Proof.
  intros H.
  destruct pf as [p|];
    [|rewrite Verify_nil_guard in H by auto; discriminate].
  destruct (has_nil_field p) eqn:Hnil;
    [rewrite Verify_nil_field in H by assumption; discriminate|].
  destruct ec as [[oq]|];
    [|rewrite Verify_nil_guard in H by auto; discriminate].
  destruct N0 as [n0|];
    [|rewrite Verify_nil_guard in H by auto; discriminate].
  destruct NCap as [nc|];
    [|rewrite Verify_nil_guard in H by auto 6; discriminate].
  destruct s as [sv|];
    [|rewrite Verify_nil_guard in H by auto 6; discriminate].
  destruct t as [tv|];
    [|rewrite Verify_nil_guard in H by auto 7; discriminate].
  destruct (Z_lt_le_dec 0 n0) as [Hn0|Hn0];
    [|rewrite Verify_nonpositive in H by (left; eauto); discriminate].
  destruct (Z_lt_le_dec 0 nc) as [Hnc|Hnc];
    [|rewrite Verify_nonpositive in H by (right; eauto); discriminate].
  destruct oq as [q|];
    [|rewrite Verify_nil_order_panics in H by (assumption || discriminate);
      discriminate].
  rewrite Verify_unfold in H by assumption.
  destruct (interval_checks p q n0 nc) eqn:HI; [|discriminate].
  destruct (coprimality_checks p nc) eqn:HC; [|discriminate].
  exists p, q, n0, nc, sv, tv. repeat split; (reflexivity || assumption).
Qed.

Lemma unit_is_nonzero (v : big.Int) (nc : Z) :
  1 < nc -> coprime_to v nc = true -> nonzero_field v = true.
Proof.
  intros Hnc. destruct v as [a|]; cbn; [|discriminate].
  intros H%Z.eqb_eq. apply negb_true_iff, Z.eqb_neq.
  intros ->. rewrite Z.gcd_0_l in H. lia.
Qed.

Lemma abs_proof_nonneg (pf : ProofFac) :
  all_nonneg pf = true -> abs_proof pf = pf.
Proof.
  destruct pf as [fP fQ fA fB fT fS fZ1 fZ2 fW1 fW2 fV].
  unfold all_nonneg, fields, abs_proof.
  cbn [P Q A B T Sigma Z1 Z2 W1 W2 V forallb].
  rewrite !andb_true_iff.
  assert (E : forall v, nonneg v = true -> abs_field v = v).
  { intros [a|]; cbn; [|discriminate].
    intros H%Z.leb_le. now rewrite Z.abs_eq. }
  intros (HP & HQ & HA & HB & HT & HS & HZ1 & HZ2 & HW1 & HW2 & HV & _).
  now rewrite !E.
Qed.

(** X10: an accepted proof survives the wire.  A proof that [Verify]
    accepts for a modulus [NCap > 1], and whose fields [Sigma], [Z1],
    [Z2], [W1], [W2], [V] are not zero, is returned unchanged by
    [NewProofFromBytes] on its [Bytes]: acceptance forces every field to be
    non-negative and the five commitments, coprime to [NCap], not to be
    zero. *)
Theorem accepted_proof_survives_wire O (pf : ProofFac) ec N0 (nc : Z) s t :
  Verify O (Some pf) ec N0 (Some nc) s t = Ret true ->
  1 < nc -> nonzero_responses pf = true ->
  exists bzs,
    Bytes (Some pf) = Ret bzs
    /\ NewProofFromBytes bzs = Ret (Some pf, None).
Proof.
  intros HV Hnc Hresp.
  destruct (Verify_true_inv _ _ _ _ _ _ _ HV)
    as (p & q & n0 & nc' & sv & tv & [= <-] & -> & -> & [= <-] & -> & ->
        & Hnil & Hn0 & _ & HI & HC).
  exists (map field_bytes (fields pf)).
  split; [now apply Bytes_value|].
  assert (Hnz : all_nonzero pf = true).
  { unfold coprimality_checks in HC. rewrite !andb_true_iff in HC.
    destruct HC as [[[[HP HQ] HA] HB] HT].
    unfold nonzero_responses in Hresp. cbn [forallb] in Hresp.
    rewrite !andb_true_iff in Hresp.
    destruct Hresp as (HS & HZ1 & HZ2 & HW1 & HW2 & HVn & _).
    unfold all_nonzero, fields. cbn [forallb].
    rewrite !(unit_is_nonzero _ nc Hnc) by assumption.
    rewrite HS, HZ1, HZ2, HW1, HW2, HVn. reflexivity. }
  rewrite (roundtrip_abs pf Hnz).
  rewrite abs_proof_nonneg; [reflexivity|].
  apply interval_checks_inv in HI.
  destruct HI as (HP & HQ & HA & HB & HT & HS & HZ1 & HZ2 & HW1 & HW2 & HVn).
  unfold all_nonneg, fields. cbn [forallb].
  now rewrite HP, HQ, HA, HB, HT, HS, HZ1, HZ2, HW1, HW2, HVn.
Qed.

End Accepted.

Section Lifting.

(** (a + t·n)^(k+1) = a^(k+1) + (k+1)·a^k·t·n + n²·u *)
Lemma binomial_head (a t n k : Z) :
  0 <= k ->
  exists u,
    (a + t * n) ^ (k + 1)
    = a ^ (k + 1) + (k + 1) * a ^ k * t * n + n * n * u.
Proof.
  intros Hk. pattern k. apply natlike_ind; [| |exact Hk].
  - exists 0. change (0 + 1) with 1. rewrite !Z.pow_1_r, Z.pow_0_r. ring.
  - clear k Hk. intros k Hk [u IH].
    exists (a * u + (k + 1) * a ^ k * t * t + t * n * u).
    replace (Z.succ k + 1) with (Z.succ (k + 1)) by lia.
    rewrite (Z.pow_succ_r (a + t * n)) by lia. rewrite IH.
    rewrite (Z.pow_succ_r a (k + 1)) by lia.
    replace (Z.succ k) with (k + 1) by lia.
    rewrite (Z.pow_add_r a k 1) by lia. rewrite Z.pow_1_r. ring.
Qed.

(** x ≡ y (mod n) gives x^n ≡ y^n (mod n²) *)
Lemma pow_lift (x y n : Z) :
  0 < n -> x mod n = y mod n -> x ^ n mod (n * n) = y ^ n mod (n * n).
Proof.
  intros Hn Hxy.
  assert (Hx : x = y + (x / n - y / n) * n).
  { rewrite (Z.div_mod x n) at 1 by lia.
    rewrite (Z.div_mod y n) at 1 by lia. rewrite Hxy. ring. }
  set (t := x / n - y / n) in Hx.
  destruct (binomial_head y t n (n - 1) ltac:(lia)) as [u Hu].
  replace (n - 1 + 1) with n in Hu by lia.
  rewrite Hx, Hu.
  replace (y ^ n + n * y ^ (n - 1) * t * n + n * n * u)
    with (y ^ n + (y ^ (n - 1) * t + u) * (n * n)) by ring.
  apply Z.mod_add. nia.
Qed.

End Lifting.

Section Congruence.
Variable M : Z.

#[local] Existing Instance eqm_setoid.
#[local] Existing Instance Zmult_eqm.

Lemma eqm_pow (a b e : Z) : eqm M a b -> eqm M (a ^ e) (b ^ e).
Proof.
  unfold eqm. intros H.
  rewrite <- (Z.mod_pow_l a), <- (Z.mod_pow_l b). now rewrite H.
Qed.

(** A · (X·Y)^e · ... : the factor (c · c^-1)^e vanishes. *)
Lemma cancel_inverse_power (A c cinv e : Z) :
  0 <= e -> eqm M (cinv * c) 1 ->
  eqm M (A * c ^ e * cinv ^ e) A.
Proof.
  intros He Hinv.
  replace (A * c ^ e * cinv ^ e) with (A * (cinv * c) ^ e)
    by (rewrite Z.pow_mul_l; ring).
  rewrite (eqm_pow _ _ e Hinv). rewrite Z.pow_1_l by lia.
  now rewrite Z.mul_1_r.
Qed.

End Congruence.

Section AliceValue.
Import mtamath.

Lemma Exp_neg (c e m : Z) :
  0 <= e -> 1 < m -> 0 <= c -> Z.gcd c m = 1 ->
  big.Exp (Some c) (Some (0 - e)) (Some m)
  = Ret (Some (Z.invmod c m ^ e mod m)).
Proof.
  intros He Hm Hc Hg. unfold big.Exp. cbn [deref bind].
  rewrite (Z.abs_eq m) by lia.
  replace (m =? 0) with false by (symmetry; apply Z.eqb_neq; lia).
  destruct (Z.ltb_spec (0 - e) 0) as [Hneg|Hzero].
  - rewrite Hg. cbn [Z.eqb Pos.eqb].
    replace (c <? 0) with false by (symmetry; apply Z.ltb_ge; lia).
    cbn [andb].
    rewrite Zpow_mod_correct by lia.
    now replace (- (0 - e)) with e by lia.
  - assert (e = 0) as -> by lia.
    rewrite Zpow_mod_correct by lia. reflexivity.
Qed.

Lemma alice_complete_inv (p : mta.RangeProofAlice) :
  alice_complete p = true ->
  exists z u w s s1 s2,
    p = {| mta.Z := Some z; mta.U := Some u; mta.W := Some w;
           mta.S := Some s; mta.S1 := Some s1; mta.S2 := Some s2 |}.
Proof.
  destruct p as [[z|] [u|] [w|] [s|] [s1|] [s2|]]; cbn;
    try discriminate.
  intros _. repeat eexists.
Qed.

Lemma Cmp_value (a b : Z) :
  big.Cmp (Some a) (Some b)
  = Ret (match a ?= b with Lt => -1 | Eq => 0 | Gt => 1 end).
Proof. reflexivity. Qed.

Lemma alice_Verify_value EC O (p : mta.RangeProofAlice)
    (q n g nt h1 h2 c e : Z) :
  EC = Some {| elliptic.N := Some q |} ->
  1 < n -> 1 < nt ->
  alice_complete p = true ->
  nonneg (mta.S1 p) = true -> nonneg (mta.S2 p) = true ->
  challenge_of O {| paillier.N := Some n; paillier.Gamma := Some g |} q
               (Some c) p = Some e ->
  0 <= e ->
  0 <= c -> nonneg (mta.Z p) = true ->
  Z.gcd c (n * n) = 1 -> Z.gcd (facmath.val (mta.Z p)) nt = 1 ->
  mta.Verify EC O (Some p)
             (Some {| paillier.N := Some n; paillier.Gamma := Some g |})
             (Some nt) (Some h1) (Some h2) (Some c)
  = Ret ((facmath.val (mta.S1 p) <=? q ^ 3)
         && ciphertext_check p g n c e && commitment_check p nt h1 h2 e).
Proof.
  intros HEC Hn Hnt Hc HS1 HS2 Hch He Hc0 HZ0 Hgc Hgz.
  destruct (alice_complete_inv p Hc) as (z & u & w & s & s1 & s2 & ->).
  cbn [mta.S1 mta.S2 mta.Z nonneg facmath.val] in *.
  apply Z.leb_le in HS1. apply Z.leb_le in HS2. apply Z.leb_le in HZ0.
  rewrite (alice_Verify_unfold EC O _ _ q n s1)
    by (assumption || reflexivity || discriminate).
  rewrite (Z.leb_antisym (q ^ 3) s1).
  destruct (q ^ 3 <? s1); [reflexivity|]. cbn [negb andb].
  unfold mta.equality_checks, ciphertext_check, commitment_check.
  unfold challenge_of in Hch.
  cbn [paillier.N paillier.Gamma mta.Z mta.U mta.W mta.S mta.S1 mta.S2
       facmath.val] in *.
  match goal with
  | |- context [common.RejectionSample O ?a ?h] =>
      replace (common.RejectionSample O a h) with (Some e)
        by (symmetry; exact Hch)
  end.
  assert (HM : 1 < n * n) by nia.
  cbn [big.Mul big.Sub mta.zero big.NewInt deref bind].
  rewrite (Exp_neg c e (n * n)) by assumption. cbn [bind].
  rewrite (Exp_neg z e nt) by assumption.
  repeat (first [ rewrite Exp_pos by lia
                | rewrite modInt_Mul_pos by lia
                | rewrite Cmp_value
                | rewrite cmp_zero_eqb ];
          cbn [bind]).
  rewrite <- (Z.mul_mod (g ^ s1) (s ^ n)) by lia.
  rewrite <- (Z.mul_mod (h1 ^ s1) (h2 ^ s2)) by lia.
  rewrite !Z.mul_mod_idemp_l, !Z.mul_mod_idemp_r by lia.
  destruct (u =? _); [|reflexivity].
  destruct (w =? _); reflexivity.
Qed.

End AliceValue.

Section AliceCompleteness.
Import mtamath.

#[local] Existing Instance eqm_setoid.
#[local] Existing Instance Zmult_eqm.

Lemma ProveRangeAlice_value EC O (q n g nt h1 h2 m r a b ga rho e : Z)
    (c : big.Int) :
  EC = Some {| elliptic.N := Some q |} ->
  0 < n -> 0 < nt -> 0 <= m -> 0 <= a -> 0 <= ga -> 0 <= rho -> 0 <= e ->
  let k := {| paillier.N := Some n; paillier.Gamma := Some g |} in
  let p := honest_proof n g nt h1 h2 m r a b ga rho e in
  challenge_of O k q c p = Some e ->
  mta.ProveRangeAlice EC O
    {| mta.alpha := Some a; mta.beta := Some b; mta.gamma := Some ga;
       mta.rho := Some rho |}
    (Some k) c (Some nt) (Some h1) (Some h2) (Some m) (Some r)
  = Ret (Some p).
Proof.
  intros -> Hn Hnt Hm Ha Hga Hrho He k p Hch. subst k p.
  unfold challenge_of, honest_proof in Hch.
  cbn [paillier.N paillier.Gamma mta.Z mta.U mta.W] in Hch.
  unfold mta.ProveRangeAlice, paillier.NSquare, paillier.AsInts,
    random.GetRandomPositiveInt, random.GetRandomPositiveRelativelyPrimeInt,
    common.GetRandomPositiveInt, common.GetRandomPositiveRelativelyPrimeInt,
    honest_proof, commit.
  cbn [elliptic.Params elliptic.N deref bind big.Mul mta.alpha mta.beta
       mta.gamma mta.rho paillier.N paillier.Gamma].
  assert (HM : 0 < n * n) by nia.
  unfold common.modInt.Exp, common.ModInt.
  repeat (first [ rewrite Exp_pos by lia
                | rewrite modInt_Mul_pos by lia ];
          cbn [bind]).
  match goal with
  | |- context [common.RejectionSample O ?u ?h] =>
      replace (common.RejectionSample O u h) with (Some e)
        by (symmetry; exact Hch)
  end.
  repeat (first [ rewrite Exp_pos by lia
                | rewrite modInt_Mul_pos by lia ];
          cbn [bind]).
  cbn [big.Mul big.Add deref bind]. reflexivity.
Qed.

Lemma coprime_square (x n : Z) : Z.gcd x n = 1 -> Z.gcd x (n * n) = 1.
Proof. intros H. now apply Z.coprime_mul_r. Qed.

Lemma honest_ciphertext_check (n g m r a b e c : Z) :
  1 < n -> 0 <= m -> 0 <= a -> 0 <= e ->
  Z.gcd c (n * n) = 1 ->
  c mod (n * n) = (g ^ m * r ^ n) mod (n * n) ->
  (g ^ (e * m + a) * ((r ^ e mod n) * b mod n) ^ n
   * Z.invmod c (n * n) ^ e) mod (n * n)
  = commit (n * n) g b a n.
Proof.
  intros Hn Hm Ha He Hgc Hc.
  assert (HM : 0 < n * n) by nia.
  rewrite commit_eq by lia.
  set (M := n * n) in *.
  change (eqm M (g ^ (e * m + a) * ((r ^ e mod n) * b mod n) ^ n
                 * Z.invmod c M ^ e) (g ^ a * b ^ n)).
  assert (HS : eqm M (((r ^ e mod n) * b mod n) ^ n) ((r ^ e * b) ^ n)).
  { apply pow_lift; [lia|].
    rewrite Z.mod_mod by lia. now rewrite Z.mul_mod_idemp_l by lia. }
  assert (Hinv : eqm M (Z.invmod c M * c) 1)
    by (apply Z.invmod_coprime'; exact Hgc).
  assert (Hpow : eqm M ((g ^ m * r ^ n) ^ e) (c ^ e))
    by (apply eqm_pow; symmetry; exact Hc).
  transitivity (g ^ (e * m + a) * (r ^ e * b) ^ n * Z.invmod c M ^ e).
  { apply Zmult_eqm; [|reflexivity]. apply Zmult_eqm; [reflexivity|exact HS]. }
  replace (g ^ (e * m + a) * (r ^ e * b) ^ n * Z.invmod c M ^ e)
    with (g ^ a * b ^ n * (g ^ m * r ^ n) ^ e * Z.invmod c M ^ e).
  2:{ rewrite Z.pow_add_r by nia. rewrite !Z.pow_mul_l.
      rewrite <- !Z.pow_mul_r by lia.
      rewrite (Z.mul_comm e m), (Z.mul_comm n e). ring. }
  transitivity (g ^ a * b ^ n * c ^ e * Z.invmod c M ^ e).
  { apply Zmult_eqm; [|reflexivity]. apply Zmult_eqm; [reflexivity|exact Hpow]. }
  apply cancel_inverse_power; assumption.
Qed.

Lemma honest_commitment_check (nt h1 h2 m a ga rho e : Z) :
  1 < nt -> 0 <= m -> 0 <= a -> 0 <= ga -> 0 <= rho -> 0 <= e ->
  Z.gcd h1 nt = 1 -> Z.gcd h2 nt = 1 ->
  (h1 ^ (e * m + a) * h2 ^ (e * rho + ga)
   * Z.invmod (commit nt h1 h2 m rho) nt ^ e) mod nt
  = commit nt h1 h2 a ga.
Proof.
  intros Hnt Hm Ha Hga Hrho He Hg1 Hg2.
  assert (Hpos : 0 < nt) by lia.
  set (Zc := commit nt h1 h2 m rho).
  assert (Hgz : Z.gcd Zc nt = 1) by (apply commit_coprime; assumption).
  pose proof (response_equation nt Hpos h1 h2 e m a rho ga He Hm Ha Hrho Hga)
    as E.
  rewrite commit_eq in E by lia. fold Zc in E.
  rewrite Z.mul_mod_idemp_r in E by lia.
  assert (Hinv : eqm nt (Z.invmod Zc nt * Zc) 1)
    by (apply Z.invmod_coprime'; exact Hgz).
  rewrite <- (Z.mod_small (commit nt h1 h2 a ga) nt)
    by (apply commit_range; lia).
  change (eqm nt (h1 ^ (e * m + a) * h2 ^ (e * rho + ga) * Z.invmod Zc nt ^ e)
              (commit nt h1 h2 a ga)).
  transitivity (commit nt h1 h2 a ga * Zc ^ e * Z.invmod Zc nt ^ e).
  { apply Zmult_eqm; [exact E | reflexivity]. }
  apply cancel_inverse_power; assumption.
Qed.

End AliceCompleteness.

Section AliceTheorems.
Import mtamath.

(** X11: [RangeProofAlice.Verify] is a conjunction of checks.  For a
    complete proof with non-negative [S1], [S2] and [Z], a non-negative
    challenge [e], a non-negative ciphertext [c] coprime to [N^2] and [Z]
    coprime to [NTilde], [Verify] returns exactly the conjunction of
    [S1 <= q^3], of [U = Gamma^S1 S^N c^(-e) mod N^2] and of
    [W = h1^S1 h2^S2 Z^(-e) mod NTilde], the negative powers being powers
    of the modular inverse.  (For a negative [c] or [Z] and an odd [e],
    [Exp] returns the modulus minus the power of the inverse, and the
    checks are not these congruences.) *)
Theorem alice_Verify_refines_checks EC O (p : mta.RangeProofAlice)
    (q n g nt h1 h2 c e : Z) :
  EC = Some {| elliptic.N := Some q |} ->
  1 < n -> 1 < nt ->
  alice_complete p = true ->
  nonneg (mta.S1 p) = true -> nonneg (mta.S2 p) = true ->
  challenge_of O {| paillier.N := Some n; paillier.Gamma := Some g |} q
               (Some c) p = Some e ->
  0 <= e ->
  0 <= c -> nonneg (mta.Z p) = true ->
  Z.gcd c (n * n) = 1 -> Z.gcd (facmath.val (mta.Z p)) nt = 1 ->
  mta.Verify EC O (Some p)
             (Some {| paillier.N := Some n; paillier.Gamma := Some g |})
             (Some nt) (Some h1) (Some h2) (Some c)
  = Ret ((facmath.val (mta.S1 p) <=? q ^ 3)
         && ciphertext_check p g n c e && commitment_check p nt h1 h2 e).
Proof.
  intros HEC Hn Hnt Hc HS1 HS2 Hch He Hc0 HZ0 Hgc Hgz.
  destruct (alice_complete_inv p Hc) as (z & u & w & s & s1 & s2 & ->).
  cbn [mta.S1 mta.S2 mta.Z nonneg facmath.val] in *.
  apply Z.leb_le in HS1. apply Z.leb_le in HS2. apply Z.leb_le in HZ0.
  rewrite (alice_Verify_unfold EC O _ _ q n s1)
    by (assumption || reflexivity || discriminate).
  rewrite (Z.leb_antisym (q ^ 3) s1).
  destruct (q ^ 3 <? s1); [reflexivity|]. cbn [negb andb].
  unfold mta.equality_checks, ciphertext_check, commitment_check.
  unfold challenge_of in Hch.
  cbn [paillier.N paillier.Gamma mta.Z mta.U mta.W mta.S mta.S1 mta.S2
       facmath.val] in *.
  match goal with
  | |- context [common.RejectionSample O ?a ?h] =>
      replace (common.RejectionSample O a h) with (Some e)
        by (symmetry; exact Hch)
  end.
  assert (HM : 1 < n * n) by nia.
  cbn [big.Mul big.Sub mta.zero big.NewInt deref bind].
  rewrite (Exp_neg c e (n * n)) by assumption. cbn [bind].
  rewrite (Exp_neg z e nt) by assumption.
  repeat (first [ rewrite Exp_pos by lia
                | rewrite modInt_Mul_pos by lia
                | rewrite Cmp_value
                | rewrite cmp_zero_eqb ];
          cbn [bind]).
  rewrite <- (Z.mul_mod (g ^ s1) (s ^ n)) by lia.
  rewrite <- (Z.mul_mod (h1 ^ s1) (h2 ^ s2)) by lia.
  rewrite !Z.mul_mod_idemp_l, !Z.mul_mod_idemp_r by lia.
  destruct (u =? _); [|reflexivity].
  destruct (w =? _); reflexivity.
Qed.

Lemma alice_draws_inv (rnd : mta.Draws) :
  mtaspec.nonneg_draws rnd = true ->
  exists a b ga rho,
    rnd = {| mta.alpha := Some a; mta.beta := Some b; mta.gamma := Some ga;
             mta.rho := Some rho |}
    /\ 0 <= a /\ 0 <= ga /\ 0 <= rho.
Proof.
  destruct rnd as [fa fb fg fr]. unfold mtaspec.nonneg_draws.
  cbn [mta.alpha mta.beta mta.gamma mta.rho].
  rewrite !andb_true_iff. intros [[[Ha Hb] Hga] Hrho].
  apply nonneg_inv in Ha as (a & -> & Ha).
  apply nonneg_inv in Hga as (ga & -> & Hga).
  apply nonneg_inv in Hrho as (rho & -> & Hrho).
  destruct fb as [b|]; [|discriminate].
  exists a, b, ga, rho. auto.
Qed.

(** X12: completeness of the range proof.  For a Paillier key with
    [Gamma] a unit modulo [N], bases [h1], [h2] units modulo [NTilde], a
    ciphertext [c >= 0] with [c = Gamma^m r^N] modulo [N^2] for a
    non-negative [m] and a unit [r], and every run of the sampling with
    non-negative draws, [ProveRangeAlice] returns a proof whose responses
    are [S1 = e m + alpha] and [S2 = e rho + gamma] for the challenge [e]
    of the proof, and [Verify] accepts this proof exactly when
    [e m + alpha <= q^3]. *)
Theorem alice_honest_proof_verifies_iff_S1_bound
    EC O (rnd : mta.Draws) (q n g nt h1 h2 m r c : Z) :
  EC = Some {| elliptic.N := Some q |} ->
  1 < n -> 1 < nt -> 0 <= m -> 0 <= c ->
  Z.gcd g n = 1 -> Z.gcd r n = 1 ->
  Z.gcd h1 nt = 1 -> Z.gcd h2 nt = 1 ->
  c mod (n * n) = (g ^ m * r ^ n) mod (n * n) ->
  mtaspec.nonneg_draws rnd = true ->
  common.challenges_in_range O q ->
  let k := {| paillier.N := Some n; paillier.Gamma := Some g |} in
  exists p e a ga rho,
    mta.alpha rnd = Some a /\ mta.gamma rnd = Some ga
    /\ mta.rho rnd = Some rho
    /\ mta.ProveRangeAlice EC O rnd (Some k) (Some c) (Some nt) (Some h1)
                           (Some h2) (Some m) (Some r) = Ret (Some p)
    /\ challenge_of O k q (Some c) p = Some e /\ 0 <= e < q
    /\ mta.S1 p = Some (e * m + a) /\ mta.S2 p = Some (e * rho + ga)
    /\ mta.Verify EC O (Some p) (Some k) (Some nt) (Some h1) (Some h2)
                  (Some c)
       = Ret (e * m + a <=? q ^ 3).
Proof.
  intros HEC Hn Hnt Hm Hc0 Hg Hr Hh1 Hh2 Hc Hd HO k.
  destruct (alice_draws_inv rnd Hd) as (a & b & ga & rho & -> & Ha & Hga
                                         & Hrho).
  destruct (challenge_inv O q
              (common.SHA512_256i O
                 ([Some n; Some g]
                    ++ [Some c; Some (commit nt h1 h2 m rho);
                        Some (commit (n * n) g b a n);
                        Some (commit nt h1 h2 a ga)])) HO)
    as (e & Hch & He).
  exists (honest_proof n g nt h1 h2 m r a b ga rho e), e, a, ga, rho.
  assert (Hgc : Z.gcd c (n * n) = 1).
  { apply Z.coprime_mod_l_iff. unfold Z.coprime. rewrite Hc.
    apply Z.coprime_mod_l_iff.
    apply Z.coprime_mul_l; apply Z.coprime_pow_l; try lia;
      now apply coprime_square. }
  split; [reflexivity|]. split; [reflexivity|]. split; [reflexivity|].
  split.
  { apply (ProveRangeAlice_value EC O q n g nt h1 h2 m r a b ga rho e);
      try lia; try assumption. }
  split; [exact Hch|]. split; [exact He|].
  split; [reflexivity|]. split; [reflexivity|].
  subst k.
  rewrite (alice_Verify_value EC O _ q n g nt h1 h2 c e);
    try first [ assumption | reflexivity | lia | exact Hch
              | cbn; apply Z.leb_le; nia
              | cbn; apply Z.leb_le; apply commit_range; lia
              | cbn; apply commit_coprime; assumption || lia ].
  unfold ciphertext_check, commitment_check, honest_proof.
  cbn [mta.Z mta.U mta.W mta.S mta.S1 mta.S2 facmath.val].
  rewrite honest_ciphertext_check by (assumption || lia).
  rewrite honest_commitment_check by (assumption || lia).
  rewrite !Z.eqb_refl, !andb_true_r. reflexivity.
Qed.

End AliceTheorems.

Section AliceEdges.
Import mtamath.

Ltac split_binds :=
  repeat match goal with
         | H : bind _ _ = Ret _ |- _ =>
             let a := fresh "v" in
             let Ha := fresh "Hv" in
             apply bind_Ret_inv in H as (a & Ha & H)
         end.

Lemma modInt_Mul_nil_l (m y : big.Int) : common.modInt.Mul m None y = Panic.
Proof. reflexivity. Qed.

Lemma modInt_Mul_nil_r (m x : big.Int) : common.modInt.Mul m x None = Panic.
Proof. destruct x; reflexivity. Qed.

Lemma Exp_returns (a b : Z) (m : big.Int) :
  exists z, big.Exp (Some a) (Some b) m = Ret z.
Proof.
  unfold big.Exp. cbn [deref bind].
  destruct (b <? 0); destruct (_ =? 0); try destruct (_ =? 1); eauto.
Qed.

Lemma Exp_no_inverse (c e m : Z) :
  0 < e -> m <> 0 -> Z.gcd c m <> 1 ->
  big.Exp (Some c) (Some (0 - e)) (Some m) = Ret None.
Proof.
  intros He Hm Hg. unfold big.Exp. cbn [deref bind].
  replace (0 - e <? 0) with true by (symmetry; apply Z.ltb_lt; lia).
  replace (Z.abs m =? 0) with false by (symmetry; apply Z.eqb_neq; lia).
  rewrite Z.gcd_abs_r.
  replace (Z.gcd c m =? 1) with false by (symmetry; now apply Z.eqb_neq).
  reflexivity.
Qed.

(** X13: [RangeProofAlice.Verify] panics on a ciphertext that is not a
    unit.  When [S1 <= q^3], the challenge is positive and [c] shares a
    factor with [N^2], the power [c^(-e)] has no value modulo [N^2]: the
    exponentiation returns nil and the following modular product
    dereferences it, so [Verify] panics instead of returning [false]. *)
Theorem alice_Verify_panics_on_non_unit_ciphertext
    EC O (p : mta.RangeProofAlice) (q n g s s1 c e : Z)
    (NTilde h1 h2 : big.Int) :
  EC = Some {| elliptic.N := Some q |} ->
  n <> 0 -> mta.S p = Some s -> mta.S1 p = Some s1 -> s1 <= q ^ 3 ->
  NTilde <> None -> h1 <> None -> h2 <> None ->
  challenge_of O {| paillier.N := Some n; paillier.Gamma := Some g |} q
               (Some c) p = Some e ->
  0 < e -> Z.gcd c (n * n) <> 1 ->
  mta.Verify EC O (Some p)
             (Some {| paillier.N := Some n; paillier.Gamma := Some g |})
             NTilde h1 h2 (Some c)
  = Panic.
Proof.
  intros HEC Hn HS HS1 Hle HNT Hh1 Hh2 Hch He Hg.
  rewrite (alice_Verify_unfold EC O _ _ q n s1)
    by (assumption || reflexivity || discriminate).
  replace (q ^ 3 <? s1) with false by (symmetry; apply Z.ltb_ge; lia).
  unfold mta.equality_checks. unfold challenge_of in Hch.
  cbn [paillier.N paillier.Gamma] in *.
  match goal with
  | |- context [common.RejectionSample O ?a ?h] =>
      replace (common.RejectionSample O a h) with (Some e)
        by (symmetry; exact Hch)
  end.
  rewrite HS, HS1.
  cbn [big.Mul big.Sub mta.zero big.NewInt deref bind].
  rewrite Exp_no_inverse by (assumption || nia). cbn [bind].
  destruct (Exp_returns s n (Some (n * n))) as [z1 ->].
  destruct (Exp_returns g s1 (Some (n * n))) as [z2 ->].
  cbn [bind].
  destruct z2 as [v2|]; [|reflexivity].
  destruct z1 as [v1|]; [|reflexivity].
  rewrite modInt_Mul_value by nia. cbn [bind].
  reflexivity.
Qed.

Lemma ProveRangeAlice_returns_inv EC O rnd pk c NTilde h1 h2 m r res :
  mta.ProveRangeAlice EC O rnd pk c NTilde h1 h2 m r = Ret res ->
  isnil pk = false /\ isnil NTilde = false /\ isnil h1 = false
  /\ isnil h2 = false /\ isnil m = false /\ isnil r = false.
Proof.
  unfold mta.ProveRangeAlice. intros H. split_binds.
  unfold common.modInt.Exp in *.
  repeat match goal with
         | H : big.Exp _ _ _ = Ret _ |- _ =>
             apply Exp_args_nonnil in H as [? ?]
         | H : big.Mul _ NTilde = Ret _ |- _ =>
             apply Mul_inv in H as (? & ? & ? & ? & ?)
         | H : deref pk = Ret _ |- _ => apply deref_inv in H
         end.
  subst. repeat split; (reflexivity || assumption).
Qed.

(** X14: [ProveRangeAlice] has no nil guard.  With a nil key, [NTilde],
    [h1], [h2], [m] or [r] the prover panics: it has no error result and
    does not return a nil proof either. *)
Theorem ProveRangeAlice_panics_on_nil_input EC O rnd pk c NTilde h1 h2 m r :
  pk = None \/ NTilde = None \/ h1 = None \/ h2 = None \/ m = None
  \/ r = None ->
  mta.ProveRangeAlice EC O rnd pk c NTilde h1 h2 m r = Panic.
Proof.
  intros H.
  destruct (mta.ProveRangeAlice EC O rnd pk c NTilde h1 h2 m r)
    as [res|] eqn:E; [|reflexivity].
  apply ProveRangeAlice_returns_inv in E
    as (Hpk & HNT & Hh1 & Hh2 & Hm & Hr).
  destruct H as [-> | [-> | [-> | [-> | [-> | ->]]]]]; discriminate.
Qed.

End AliceEdges.

Section AliceShape.
Import mtamath.

Ltac split_binds :=
  repeat match goal with
         | H : bind _ _ = Ret _ |- _ =>
             let a := fresh "v" in
             let Ha := fresh "Hv" in
             apply bind_Ret_inv in H as (a & Ha & H)
         end.

(** X15: shape of the proof returned by [ProveRangeAlice].  In every
    returned proof [Z] and [W] are reduced modulo [NTilde], [U] modulo
    [N^2] and [S] modulo [N], and the responses are computed over the
    integers, without any reduction: [S1 = e m + alpha] and
    [S2 = e rho + gamma], where [e] is the challenge sampled from the hash
    of the key, [c], [Z], [U] and [W]. *)
Theorem ProveRangeAlice_output_shape EC O rnd pk c NTilde h1 h2 m r p :
  mta.ProveRangeAlice EC O rnd pk c NTilde h1 h2 m r = Ret (Some p) ->
  output_shape EC O rnd pk c NTilde m p.
Proof.
  unfold output_shape, mta.ProveRangeAlice, paillier.NSquare,
    paillier.AsInts, random.GetRandomPositiveInt,
    random.GetRandomPositiveRelativelyPrimeInt, common.GetRandomPositiveInt,
    common.GetRandomPositiveRelativelyPrimeInt.
  intros H. split_binds. injection H as <-.
  repeat match goal with
         | H : common.modInt.Mul _ _ _ = Ret _ |- _ =>
             apply modInt_Mul_inv in H
               as (? & ? & ? & ? & ? & ? & ? & ? & ?)
         | H : big.Add _ _ = Ret _ |- _ =>
             apply Add_inv in H as (? & ? & ? & ? & ?)
         | H : big.Mul _ _ = Ret _ |- _ =>
             apply Mul_inv in H as (? & ? & ? & ? & ?)
         | H : elliptic.Params _ = Ret _ |- _ => apply deref_inv in H
         | H : deref _ = Ret _ |- _ => apply deref_inv in H
         | H : Ret _ = Ret _ |- _ => injection H as H
         end.
  destruct rnd as [fa fb fg fr].
  cbn [mta.alpha mta.beta mta.gamma mta.rho] in *.
  unfold common.ModInt in *.
  subst.
  repeat match goal with
         | H : Some _ = Some _ |- _ => injection H as H; try subst
         end.
  repeat match goal with
         | H1 : ?t = Some ?a, H2 : ?t = Some ?b |- _ =>
             let E := fresh "E" in
             assert (E : b = a) by congruence; subst b; clear H2
         end.
  match goal with
  | H : 0 <= _ < Z.abs (?n * ?n) |- _ =>
      rewrite (Z.abs_eq (n * n)) in * by nia
  end.
  do 10 eexists.
  repeat match goal with
         | |- _ /\ _ => split
         end;
    try reflexivity; try eassumption;
    cbn [mta.Z mta.U mta.W mta.S mta.S1 mta.S2];
    try (apply in_interval_true; eassumption);
    try congruence.
Qed.

End AliceShape.

Section AliceGuard.

(** X16: the nil guard of [RangeProofAlice.Verify] covers its arguments
    only.  A nil proof, key, [NTilde], [h1], [h2] or [c] gives [false];
    a non-nil key whose modulus [N] is nil passes the guard and makes
    [Verify] panic in the first multiplication. *)
Theorem alice_Verify_guard_covers_arguments_only EC O pf pk NTilde h1 h2 c :
  (pf = None \/ pk = None \/ NTilde = None \/ h1 = None \/ h2 = None
   \/ c = None ->
   mta.Verify EC O pf pk NTilde h1 h2 c = Ret false)
  /\ (pf <> None -> NTilde <> None -> h1 <> None -> h2 <> None ->
      c <> None ->
      forall g,
        mta.Verify EC O pf
                   (Some {| paillier.N := None; paillier.Gamma := g |})
                   NTilde h1 h2 c = Panic).
Proof.
  split.
  - apply alice_Verify_nil_arguments.
  - intros Hpf HNT Hh1 Hh2 Hc g.
    destruct pf; [|contradiction]. destruct NTilde; [|contradiction].
    destruct h1; [|contradiction]. destruct h2; [|contradiction].
    destruct c; [|contradiction].
    reflexivity.
Qed.

End AliceGuard.

Section FurtherRuns.
Import fixtures runs.

Lemma oracle3_nonneg :
  forall q h, nonneg (common.RejectionSample oracle3 q h) = true.
Proof. intros q h. reflexivity. Defined.

Lemma Verify_refines_checks_witness :
  facproof.Verify oracle3 (Some small_proof) ec7 (Some 15) (Some 11)
                  (Some 2) (Some 3)
  = Ret (interval_checks small_proof 7 15 11
         && coprimality_checks small_proof 11
         && facmath.equalities small_proof 3 15 11 2 3).
Proof.
  apply (Verify_refines_checks oracle3 small_proof 7 15 11 2 3 3);
    (reflexivity || discriminate).
Defined.

Lemma Verify_never_panics_witness :
  exists b,
    facproof.Verify oracle3 (Some partial_proof) ec7 (Some 15) (Some 11)
                    (Some 2) (Some 3) = Ret b.
Proof.
  apply Verify_never_panics.
  - intros c [= <-]. discriminate.
  - exact oracle3_nonneg.
Defined.

Lemma Verify_accepts_trivial_bases_witness :
  facproof.Verify oracle3 (Some facmath.trivial_proof) ec7 (Some 15)
                  (Some 11) (Some 1) (Some 1) = Ret true.
Proof.
  apply (Verify_accepts_trivial_bases oracle3 7 15 11); reflexivity.
Defined.

Lemma NewProof_error_iff_nil_argument_witness :
  facproof.NewProof oracle3 draws_small ec7 None (Some 11) (Some 2) (Some 3)
                    (Some 3) (Some 5)
  = Ret (None, Some "ProveFac constructor received nil value(s)"%string)
  /\ (forall res err,
        facproof.NewProof oracle3 draws_small ec7 (Some 15) (Some 11)
                          (Some 2) (Some 3) (Some 3) (Some 5)
        = Ret (res, err) ->
        err = None /\ exists pf, res = Some pf).
Proof.
  split.
  - apply (proj1 (NewProof_error_iff_nil_argument oracle3 draws_small ec7
                    None (Some 11) (Some 2) (Some 3) (Some 3) (Some 5))).
    reflexivity.
  - apply (proj2 (NewProof_error_iff_nil_argument oracle3 draws_small ec7
                    (Some 15) (Some 11) (Some 2) (Some 3) (Some 3)
                    (Some 5))).
    reflexivity.
Defined.

Lemma NewProof_output_shape_witness :
  facmath.output_shape oracle3 draws_small ec7 (Some 15) (Some 11) (Some 2)
                       (Some 3) (Some 3) (Some 5) small_proof.
Proof.
  apply (NewProof_output_shape oracle3 draws_small ec7 (Some 15) (Some 11)
           (Some 2) (Some 3) (Some 3) (Some 5) small_proof None).
  vm_compute. reflexivity.
Defined.

Lemma Bytes_returns_iff_complete_witness :
  (facproof.Bytes (Some small_proof)
   = Ret (map field_bytes (fields small_proof))
   /\ List.length (map field_bytes (fields small_proof))
      = facproof.ProofFacBytesParts)
  /\ facproof.Bytes (Some partial_proof) = Panic.
Proof.
  split.
  - apply (proj1 (Bytes_returns_iff_complete small_proof)). reflexivity.
  - apply (proj2 (Bytes_returns_iff_complete partial_proof)). reflexivity.
Defined.

Lemma Bytes_forgets_sign_witness :
  exists bzs,
    facproof.Bytes (Some signed_proof) = Ret bzs
    /\ facproof.Bytes (Some (facwire.abs_proof signed_proof)) = Ret bzs
    /\ facproof.NewProofFromBytes bzs
       = Ret (Some (facwire.abs_proof signed_proof), None).
Proof.
  apply Bytes_forgets_sign. reflexivity.
Defined.

Lemma FromBytes_then_Bytes_strips_zeros_witness :
  (res <- facproof.NewProofFromBytes padded_parts ;;
   facproof.Bytes (fst res))
  = Ret (map facwire.strip_zeros padded_parts).
Proof.
  apply FromBytes_then_Bytes_strips_zeros.
  - reflexivity.
  - cbn. intros H. repeat (destruct H as [H|H]; [discriminate H|]).
    exact H.
Defined.

Lemma decoded_fields_bounded_witness :
  facwire.within_parts padded_parts (decode padded_parts).
Proof.
  apply (decoded_fields_bounded padded_parts (decode padded_parts) None).
  vm_compute. reflexivity.
Defined.

Lemma accepted_proof_survives_wire_witness :
  exists bzs,
    facproof.Bytes (Some small_proof) = Ret bzs
    /\ facproof.NewProofFromBytes bzs = Ret (Some small_proof, None).
Proof.
  apply (accepted_proof_survives_wire oracle3 small_proof ec7 (Some 15) 11
           (Some 2) (Some 3)).
  - vm_compute. reflexivity.
  - reflexivity.
  - reflexivity.
Defined.

Lemma alice_Verify_refines_checks_witness :
  mta.Verify ec7 oracle3 (Some alice_proof) (Some alice_pk) (Some 11)
             (Some 2) (Some 3) (Some 158)
  = Ret ((facmath.val (mta.S1 alice_proof) <=? 7 ^ 3)
         && mtamath.ciphertext_check alice_proof 16 15 158 3
         && mtamath.commitment_check alice_proof 11 2 3 3).
Proof.
  apply (alice_Verify_refines_checks ec7 oracle3 alice_proof 7 15 16 11 2 3
           158 3);
    (reflexivity || discriminate).
Defined.

Lemma alice_honest_proof_verifies_iff_S1_bound_witness :
  exists p e a ga rho,
    mta.alpha alice_draws = Some a /\ mta.gamma alice_draws = Some ga
    /\ mta.rho alice_draws = Some rho
    /\ mta.ProveRangeAlice ec7 oracle3 alice_draws (Some alice_pk)
                           (Some 158) (Some 11) (Some 2) (Some 3) (Some 2)
                           (Some 2) = Ret (Some p)
    /\ mtamath.challenge_of oracle3 alice_pk 7 (Some 158) p = Some e
    /\ 0 <= e < 7
    /\ mta.S1 p = Some (e * 2 + a) /\ mta.S2 p = Some (e * rho + ga)
    /\ mta.Verify ec7 oracle3 (Some p) (Some alice_pk) (Some 11) (Some 2)
                  (Some 3) (Some 158)
       = Ret (e * 2 + a <=? 7 ^ 3).
Proof.
  apply (alice_honest_proof_verifies_iff_S1_bound ec7 oracle3 alice_draws
           7 15 16 11 2 3 2 2 158);
    try reflexivity; try discriminate.
  exact oracle3_in_range.
Defined.

Lemma alice_Verify_panics_on_non_unit_ciphertext_witness :
  mta.Verify ec7 oracle3 (Some (unit_proof (Some 0))) (Some unit_key)
             (Some 11) (Some 1) (Some 1) (Some 0) = Panic.
Proof.
  apply (alice_Verify_panics_on_non_unit_ciphertext ec7 oracle3
           (unit_proof (Some 0)) 7 5 1 1 0 0 3);
    try reflexivity; try discriminate.
Defined.

Lemma ProveRangeAlice_panics_on_nil_input_witness :
  mta.ProveRangeAlice ec7 oracle3 alice_draws None (Some 158) (Some 11)
                      (Some 2) (Some 3) (Some 2) (Some 2) = Panic.
Proof.
  apply ProveRangeAlice_panics_on_nil_input. left. reflexivity.
Defined.

Lemma ProveRangeAlice_output_shape_witness :
  mtamath.output_shape ec7 oracle3 alice_draws (Some alice_pk) (Some 158)
                       (Some 11) (Some 2) alice_proof.
Proof.
  apply (ProveRangeAlice_output_shape ec7 oracle3 alice_draws (Some alice_pk)
           (Some 158) (Some 11) (Some 2) (Some 3) (Some 2) (Some 2)
           alice_proof).
  vm_compute. reflexivity.
Defined.

Lemma alice_Verify_guard_covers_arguments_only_witness :
  mta.Verify ec7 oracle3 None (Some alice_pk) (Some 11) (Some 2) (Some 3)
             (Some 158) = Ret false
  /\ mta.Verify ec7 oracle3 (Some alice_proof)
                (Some {| paillier.N := None; paillier.Gamma := Some 16 |})
                (Some 11) (Some 2) (Some 3) (Some 158) = Panic.
Proof.
  split.
  - apply (proj1 (alice_Verify_guard_covers_arguments_only ec7 oracle3 None
                    (Some alice_pk) (Some 11) (Some 2) (Some 3) (Some 158))).
    left. reflexivity.
  - apply (proj2 (alice_Verify_guard_covers_arguments_only ec7 oracle3
                    (Some alice_proof) (Some alice_pk) (Some 11) (Some 2)
                    (Some 3) (Some 158)));
      discriminate.
Defined.

End FurtherRuns.
